(** * LamaH-CE river-network dataset: a shallow embedding of [dataset.py]

    The development follows the class [LamaHDataset]: the persisted tables,
    the one-time topology builder [process], the constructor [__init__],
    the flat sample index ([len], [_decode_index], [get]) and the
    per-gauge normalisation.

    Conventions.
    - Python integers are [Z]; [//] is floor division, which is [Z.div].
    - Floating-point columns and tensors are idealised as real numbers [R].
    - Python sets are [gset Z]; the order in which a [for] loop walks a set
      is not fixed by the language, so loops over sets take the walk as an
      explicit list and theorems quantify over every such list.
    - A pandas table is the list of its rows, in row order. A table that
      [pd.read_csv] reads from a file without data rows has columns of
      dtype object; [torch.tensor] refuses their values with a type error.
    - [sort_values] is a merge sort; the order that pandas gives to rows
      with equal keys is not fixed, and no statement depends on it.
    - A raised exception is the [Raise] case of the result type [res]. *)

From Stdlib Require Import ZArith Reals Lra Lia.
From stdpp Require Import base tactics option list gmap sorting.
From stdpp Require Import strings pretty.

Local Open Scope Z_scope.

(** ** Results and exceptions *)

Inductive exn :=
  | AssertionError
  | IndexError
  | KeyError
  | ZeroDivisionError
  | RuntimeError
  | RecursionError
  | FileNotFoundError
  | TypeError.

Inductive res (A : Type) :=
  | Ok (a : A)
  | Raise (e : exn).
Arguments Ok {A} a.
Arguments Raise {A} e.

Definition bind {A B} (m : res A) (f : A → res B) : res B :=
  match m with Ok a => f a | Raise e => Raise e end.

Notation "x <- m ;; k" := (bind m (λ x, k))
  (at level 100, m at next level, right associativity,
   format "'[v' x  <-  m  ;;  '/' k ']'").

(** A comprehension whose body may raise: the first exception wins. *)
Fixpoint mapM_res {A B} (f : A → res B) (l : list A) : res (list B) :=
  match l with
  | [] => Ok []
  | a :: l => b <- f a ;; bs <- mapM_res f l ;; Ok (b :: bs)
  end.

(** [assert c] *)
Definition py_assert (c : bool) : res unit :=
  if c then Ok () else Raise AssertionError.

(** [a // b] *)
Definition py_floordiv (a b : Z) : res Z :=
  if decide (b = 0) then Raise ZeroDivisionError else Ok (a `div` b).

(** [sum(l)] on integers *)
Definition py_sum (l : list Z) : Z := foldl Z.add 0 l.

(** ** Tables *)

(** A row of a per-gauge hourly file [ID_<gauge>.csv]. *)
Record hourly := {
  YYYY : Z; MM : Z; DD : Z; hh : Z; mm : Z;
  qobs : R
}.

(** A row of the working stream table (the raw [strm_slope] column has been
    dropped). *)
Record edge := {
  ID : Z;
  NEXTDOWNID : Z;
  dist_hdn : R;
  elev_diff : R
}.

(** A row of [Stream_dist.csv] and of the persisted [adjacency.csv]. *)
Record adjacency_row := {
  edge_of :> edge;
  strm_slope : R
}.

(** A row of [statistics.csv] (without its index). *)
Module Stat.
Record row := { mean : R; std : R; min : R; median : R; max : R }.
End Stat.

(** ** Tensors *)

(** A 2-D float tensor of shape (gauges, hours) is the list of its rows. *)
Abbreviation tensor1 := (list R).
Abbreviation tensor2 := (list (list R)).

(** [torch.stack(rows)]: fails on an empty list and on rows of unequal size. *)
Definition torch_stack (rows : list tensor1) : res tensor2 :=
  match rows with
  | [] => Raise RuntimeError
  | r :: rest =>
      if forallb (λ r', bool_decide (length r' = length r)) rest
      then Ok rows else Raise RuntimeError
  end.

(** Number of columns of a stacked tensor. *)
Definition ncols (t : tensor2) : nat :=
  match t with [] => 0%nat | r :: _ => length r end.

(** Bound of a slice [a:b] on an axis of size [n]: negative bounds count
    from the end, and the result is clamped to [0, n]. *)
Definition slice_bound (n : nat) (a : Z) : nat :=
  Z.to_nat (if decide (a < 0) then Z.max (a + Z.of_nat n) 0
            else Z.min a (Z.of_nat n)).

(** [row[a:b]] *)
Definition py_slice {A} (a b : Z) (row : list A) : list A :=
  let lo := slice_bound (length row) a in
  let hi := slice_bound (length row) b in
  take (hi - lo)%nat (drop lo row).

(** [t[:, a:b]] *)
Definition slice_cols (a b : Z) (t : tensor2) : tensor2 :=
  py_slice a b <$> t.

(** [t[:, k]]: [k] must lie in [-n, n) where [n] is the number of columns. *)
Definition index_col (k : Z) (t : tensor2) : res tensor1 :=
  let n := Z.of_nat (ncols t) in
  if decide (- n ≤ k < n) then
    let k' := Z.to_nat (if decide (k < 0) then k + n else k) in
    mapM_res (λ row : list R,
            match row !! k' with Some v => Ok v | None => Raise IndexError end) t
  else Raise IndexError.

(** [y.unsqueeze(-1)] on a 1-D tensor *)
Definition unsqueeze (y : tensor1) : tensor2 := (λ v, [v]) <$> y.

(** ** The dataset object *)

Record LamaHDataset := {
  window_size_hrs : Z;
  stride_length_hrs : Z;
  lead_time_hrs : Z;
  normalized : bool;
  years : list Z;
  year_sizes : list Z;
  gauges : list Z;
  edge_index : list (list Z);
  edge_attr : list (list R);
  mean : tensor2;
  std : tensor2;
  year_tensors : list tensor2
}.

(** The graph sample returned by [get]. *)
Record Data := {
  x : tensor2;
  y : tensor2;
  data_edge_index : list (list Z);
  data_edge_attr : list (list R)
}.

(** ** Construction *)

(** [24 * (365 + int(year % 4 == 0))] *)
Definition hours_in_year (year : Z) : Z :=
  24 * (365 + (if bool_decide (year `mod` 4 = 0) then 1 else 0)).

(** One entry of the [year_sizes] comprehension. *)
Definition year_size (window_size stride_length lead_time year : Z) : res Z :=
  q <- py_floordiv (hours_in_year year - (window_size + lead_time)) stride_length ;;
  Ok (q + 1).

(** [list(sorted(set(adjacency["ID"]).union(adjacency["NEXTDOWNID"])))] *)
Definition gauge_list (adjacency : list adjacency_row) : list Z :=
  merge_sort Z.le
    (elements ((list_to_set (map (λ r : adjacency_row, ID r) adjacency) : gset Z)
                 ∪ list_to_set (map (λ r : adjacency_row, NEXTDOWNID r) adjacency))).

(** [{gauge_id: i for i, gauge_id in enumerate(gauges)}] *)
Definition rev_index_from (i0 : nat) (gs : list Z) : gmap Z nat :=
  foldl (λ d (p : nat * Z), <[p.2 := p.1]> d) ∅ (zip (seq i0 (length gs)) gs).

Definition rev_index (gs : list Z) : gmap Z nat := rev_index_from 0 gs.

(** [d[k]] on a dict *)
Definition dict_get {V} (d : gmap Z V) (k : Z) : res V :=
  match d !! k with Some v => Ok v | None => Raise KeyError end.

(** [adjacency[["ID", "NEXTDOWNID"]].applymap(lambda x: rev_index[x])],
    as the list of its rows. *)
Definition edge_cols (d : gmap Z nat) (adjacency : list adjacency_row)
  : res (list (Z * Z)) :=
  mapM_res (λ r : adjacency_row,
          i <- dict_get d (ID r) ;;
          j <- dict_get d (NEXTDOWNID r) ;;
          Ok (Z.of_nat i, Z.of_nat j)) adjacency.

(** [edge_cols.values.transpose()]: a tensor with two rows. *)
Definition transpose2 (rows : list (Z * Z)) : list (list Z) :=
  [fst <$> rows; snd <$> rows].

(** [statistics.loc[gauge_id]] on the table indexed by ID. *)
Fixpoint stat_loc (statistics : list (Z * Stat.row)) (gauge_id : Z)
  : res Stat.row :=
  match statistics with
  | [] => Raise KeyError
  | (k, s) :: rest => if decide (k = gauge_id) then Ok s else stat_loc rest gauge_id
  end.

Section Construction.

(** Reading the hourly file of a gauge from the raw directory. *)
Variable read_hourly : Z → res (list hourly).

(** Body of the loading loop for one gauge: the (optionally normalised)
    [qobs] column together with its [YYYY] column. *)
Definition load_gauge (statistics : list (Z * Stat.row)) (norm : bool)
    (gauge_id : Z) : res (list (Z * R)) :=
  df <- read_hourly gauge_id ;;
  if norm then
    s <- stat_loc statistics gauge_id ;;
    Ok ((λ h, (YYYY h, ((qobs h - Stat.mean s) / Stat.std s)%R)) <$> df)
  else
    Ok ((λ h, (YYYY h, qobs h)) <$> df).

(** [df[df["YYYY"] == year]["qobs"].values] *)
Definition year_values (year : Z) (df : list (Z * R)) : tensor1 :=
  snd <$> filter (λ p, p.1 = year) df.

(** [torch.tensor(v, ...)] where [v] holds values of columns of a table
    read by [pd.read_csv]. The columns of a table without data rows have
    dtype object, which [torch.tensor] refuses with a type error, whatever
    part of the column [v] is; otherwise the conversion returns [v]. *)
Definition torch_tensor {A B} (table : list A) (v : B) : res B :=
  match table with [] => Raise TypeError | _ :: _ => Ok v end.

(** The rows that one pass of the loading loop appends, one per configured
    year, for the table [df] of a gauge. *)
Definition year_rows (years : list Z) (df : list (Z * R)) : res (list tensor1) :=
  mapM_res (λ year, torch_tensor df (year_values year df)) years.

(** The constructor, after [super().__init__] has made sure that the raw
    and the processed files exist. The loading loop is split in two: the
    pass over the gauges keeps the table of each gauge once its rows have
    been converted, and the year tensors are stacked from these tables. *)
Definition __init__ (adjacency : list adjacency_row)
    (statistics : list (Z * Stat.row))
    (years : list Z) (window_size stride_length lead_time : Z)
    (norm : bool) : res LamaHDataset :=
  sizes <- mapM_res (year_size window_size stride_length lead_time) years ;;
  let gs := gauge_list adjacency in
  cols <- edge_cols (rev_index gs) adjacency ;;
  edges <- torch_tensor adjacency (transpose2 cols) ;;
  weights <- torch_tensor adjacency
    ((λ r : adjacency_row, [dist_hdn r; elev_diff r; strm_slope r]) <$> adjacency) ;;
  means <- torch_tensor statistics ((λ p, [Stat.mean p.2]) <$> statistics) ;;
  stds <- torch_tensor statistics ((λ p, [Stat.std p.2]) <$> statistics) ;;
  dfs <- mapM_res (λ gauge_id,
                     df <- load_gauge statistics norm gauge_id ;;
                     _ <- year_rows years df ;;
                     Ok df) gs ;;
  tensors <- mapM_res (λ year, torch_stack (year_values year <$> dfs)) years ;;
  Ok {| window_size_hrs := window_size;
        stride_length_hrs := stride_length;
        lead_time_hrs := lead_time;
        normalized := norm;
        years := years;
        year_sizes := sizes;
        gauges := gs;
        edge_index := edges;
        edge_attr := weights;
        mean := means;
        std := stds;
        year_tensors := tensors |}.

End Construction.

(** ** The flat sample index *)

(** [len(self)] *)
Definition len (ds : LamaHDataset) : Z := py_sum (year_sizes ds).

(** The loop of [_decode_index] over [enumerate(year_sizes)], started at
    position [i]; falling out of the loop raises the assertion error. *)
Fixpoint decode_loop (stride : Z) (sizes : list Z) (i : nat) (idx : Z)
  : res (nat * Z) :=
  match sizes with
  | [] => Raise AssertionError
  | size :: rest =>
      let idx := idx - size in
      if decide (idx < 0) then Ok (i, stride * (idx + size))
      else decode_loop stride rest (S i) idx
  end.

Definition _decode_index (ds : LamaHDataset) (idx : Z) : res (tensor2 * Z) :=
  hit <- decode_loop (stride_length_hrs ds) (year_sizes ds) 0 idx ;;
  let '(i, offset) := hit in
  match year_tensors ds !! i with
  | Some t => Ok (t, offset)
  | None => Raise IndexError
  end.

Definition get (ds : LamaHDataset) (idx : Z) : res Data :=
  decoded <- _decode_index ds idx ;;
  let '(year_tensor, offset) := decoded in
  let x := slice_cols offset (offset + window_size_hrs ds) year_tensor in
  y <- index_col (offset + window_size_hrs ds + (lead_time_hrs ds - 1)) year_tensor ;;
  Ok {| x := x; y := unsqueeze y;
        data_edge_index := edge_index ds; data_edge_attr := edge_attr ds |}.

(** Re-encoding of a decoded position: the sizes of the years before
    position [j], plus the rank [r] of the window inside year [j]. *)
Definition encode_index (sizes : list Z) (j : nat) (r : Z) : Z :=
  py_sum (take j sizes) + r.

(** ** Normalisation *)

(** Size of a broadcast axis: equal sizes, or one of them is 1. *)
Definition broadcast_size (a b : nat) : res nat :=
  if decide (a = b) then Ok a
  else if decide (a = 1%nat) then Ok b
  else if decide (b = 1%nat) then Ok a
  else Raise RuntimeError.

(** Expansion of an axis to size [n]: an axis of size 1 is repeated. *)
Definition expand_axis {A} (n : nat) (l : list A) : list A :=
  if decide (length l = n) then l
  else match l with [a] => replicate n a | _ => l end.

(** Elementwise binary operation on two 2-D tensors, with broadcasting. *)
Definition elementwise (op : R → R → R) (a b : tensor2) : res tensor2 :=
  n <- broadcast_size (length a) (length b) ;;
  m <- broadcast_size (ncols a) (ncols b) ;;
  let expand t := expand_axis n (expand_axis m <$> t) in
  Ok (zip_with (zip_with op) (expand a) (expand b)).

(** [(x - self.mean) / self.std] *)
Definition normalize (ds : LamaHDataset) (x : tensor2) : res tensor2 :=
  d <- elementwise Rminus x (mean ds) ;;
  elementwise Rdiv d (std ds).

(** [self.std * x + self.mean] *)
Definition denormalize (ds : LamaHDataset) (x : tensor2) : res tensor2 :=
  p <- elementwise Rmult (std ds) x ;;
  elementwise Rplus p (mean ds).

(** ** Summary statistics of a series *)

Global Instance Rle_decision (a b : R) : Decision (a <= b)%R := Rle_dec a b.

(** The reductions of a pandas series used by [process]. An empty series
    reduces to NaN, which has no counterpart here; [0] stands for it. *)
Module Series.
Definition sum (l : list R) : R := foldl Rplus 0%R l.

Definition mean (l : list R) : R := (sum l / INR (length l))%R.

(** Sample standard deviation (one delta degree of freedom). *)
Definition std (l : list R) : R :=
  let m := mean l in
  sqrt (sum ((λ v, (v - m) * (v - m))%R <$> l) / (INR (length l) - 1))%R.

Definition min (l : list R) : R :=
  match l with [] => 0%R | a :: l => foldl Rmin a l end.

Definition max (l : list R) : R :=
  match l with [] => 0%R | a :: l => foldl Rmax a l end.

Definition median (l : list R) : R :=
  let s := merge_sort Rle l in
  let n := length s in
  if Nat.even n
  then ((nth (n / 2 - 1) s 0 + nth (n / 2) s 0) / 2)%R
  else nth (n / 2) s 0%R.

(** The list written into a row of [qobs_statistics]. *)
Definition describe (l : list R) : Stat.row :=
  {| Stat.mean := mean l; Stat.std := std l; Stat.min := min l;
     Stat.median := median l; Stat.max := max l |}.
End Series.

(** ** The topology builder *)

(** [set(stream_dist["ID"]).union(stream_dist["NEXTDOWNID"])] *)
Definition connected_gauges (stream_dist : list edge) : gset Z :=
  list_to_set (ID <$> stream_dist) ∪ list_to_set (NEXTDOWNID <$> stream_dist).

(** [set(stream_dist[stream_dist["NEXTDOWNID"] == id]["ID"])] *)
Definition predecessors (stream_dist : list edge) (id : Z) : gset Z :=
  list_to_set (ID <$> filter (λ r, NEXTDOWNID r = id) stream_dist).

(** [ts[(ts["YYYY"] >= 2000) & (ts["YYYY"] <= 2017)]] *)
Definition reference_period (ts : list hourly) : list hourly :=
  filter (λ h, 2000 ≤ YYYY h ∧ YYYY h ≤ 2017) ts.

(** [tuple(row[:5])] *)
Definition stamp (h : hourly) : Z * Z * Z * Z * Z :=
  (YYYY h, MM h, DD h, hh h, mm h).

(** Body of the filtering loop on the series of one gauge: [Ok (Some s)] when
    the gauge is feasible and [s] is the row stored for it, [Ok None] when
    the gauge is passed over, and the assertion error when the boundary
    time stamps are not the expected ones. *)
Definition gauge_check (ts : list hourly) : res (option Stat.row) :=
  if forallb (λ h, bool_decide (0 <= qobs h)%R) ts then
    let sub_ts := reference_period ts in
    if decide (Z.of_nat (length sub_ts) = (18 * 365 + 5) * 24) then
      let s := Series.describe (qobs <$> ts) in
      _ <- py_assert
             (bool_decide (stamp <$> head sub_ts = Some (2000, 1, 1, 0, 0)
                           ∧ stamp <$> last sub_ts = Some (2017, 12, 31, 23, 0))) ;;
      Ok (Some s)
    else Ok None
  else Ok None.

(** [qobs_statistics.loc[gauge_id] = s]: overwrite the row of that label, or
    append a new row. *)
Fixpoint stat_set (statistics : list (Z * Stat.row)) (gauge_id : Z)
    (s : Stat.row) : list (Z * Stat.row) :=
  match statistics with
  | [] => [(gauge_id, s)]
  | (k, s') :: rest =>
      if decide (k = gauge_id) then (k, s) :: rest
      else (k, s') :: stat_set rest gauge_id s
  end.

(** One incoming and one outgoing row of a removed gauge, merged. *)
Definition bypass_edge (inc out : edge) : edge :=
  {| ID := ID inc;
     NEXTDOWNID := NEXTDOWNID out;
     dist_hdn := dist_hdn inc + dist_hdn out;
     elev_diff := elev_diff inc + elev_diff out |}.

(** [incoming_edges.merge(outgoing_edges, how="cross")], reduced to the four
    columns kept by the concatenation. *)
Definition cross_merge (incoming outgoing : list edge) : list edge :=
  inc ← incoming; bypass_edge inc <$> outgoing.

(** Body of the removal loop for one gauge. Rows are dropped by label, and
    labels are unique; dropping the outgoing rows after the incoming ones
    raises a key error when a row is both (its label is already gone). *)
Definition remove_gauge (stream_dist : list edge) (gauge_id : Z)
  : res (list edge) :=
  let incoming_edges := filter (λ r, NEXTDOWNID r = gauge_id) stream_dist in
  let outgoing_edges := filter (λ r, ID r = gauge_id) stream_dist in
  let stream_dist := filter (λ r, NEXTDOWNID r ≠ gauge_id) stream_dist in
  if decide (Exists (λ r, NEXTDOWNID r = gauge_id) outgoing_edges)
  then Raise KeyError
  else
    let stream_dist := filter (λ r, ID r ≠ gauge_id) stream_dist in
    Ok (stream_dist ++ cross_merge incoming_edges outgoing_edges).

(** The removal loop, walking the excluded gauges in the given order. *)
Fixpoint removal_loop (order : list Z) (stream_dist : list edge)
  : res (list edge) :=
  match order with
  | [] => Ok stream_dist
  | gauge_id :: order =>
      stream_dist <- remove_gauge stream_dist gauge_id ;;
      removal_loop order stream_dist
  end.

(** [stream_dist["strm_slope"] = stream_dist["elev_diff"] / stream_dist["dist_hdn"]] *)
Definition with_slope (r : edge) : adjacency_row :=
  {| edge_of := r; strm_slope := elev_diff r / dist_hdn r |}.

(** Order of [sort_values(by="ID")]. Rows with equal IDs are kept in table
    order here; pandas leaves their order open. *)
Definition by_ID (r1 r2 : adjacency_row) : Prop := ID r1 ≤ ID r2.

Global Instance by_ID_dec r1 r2 : Decision (by_ID r1 r2).
Proof. unfold by_ID. apply _. Defined.

Section Process.

(** The order in which a [for] loop walks a set. *)
Variable walk : gset Z → list Z.

(** Reading the hourly file of a gauge from the raw directory. *)
Variable read_hourly : Z → res (list hourly).

(** [collect_upstream(id)]; [depth] is the recursion depth still available
    to the interpreter. *)
Fixpoint collect_upstream (depth : nat) (stream_dist : list edge) (id : Z)
  : res (gset Z) :=
  match depth with
  | O => Raise RecursionError
  | S depth =>
      let predecessors := predecessors stream_dist id in
      if decide (size predecessors = 0%nat) then Ok {[ id ]}
      else
        ups <- mapM_res (collect_upstream depth stream_dist) (walk predecessors) ;;
        Ok ({[ id ]} ∪ ⋃ ups)
  end.

(** The filtering loop over the gauges upstream of the outlet. *)
Fixpoint filter_loop (order : list Z)
    (feasible_gauges : gset Z) (qobs_statistics : list (Z * Stat.row))
  : res (gset Z * list (Z * Stat.row)) :=
  match order with
  | [] => Ok (feasible_gauges, qobs_statistics)
  | gauge_id :: order =>
      ts <- read_hourly gauge_id ;;
      verdict <- gauge_check ts ;;
      match verdict with
      | Some s =>
          filter_loop order ({[ gauge_id ]} ∪ feasible_gauges)
            (stat_set qobs_statistics gauge_id s)
      | None => filter_loop order feasible_gauges qobs_statistics
      end
  end.

(** [process()]: from the raw stream table to the two persisted tables,
    [adjacency.csv] and [statistics.csv]. *)
Definition process (depth : nat) (raw : list adjacency_row)
  : res (list adjacency_row * list (Z * Stat.row)) :=
  let stream_dist := edge_of <$> raw in
  let connected_gauges := connected_gauges stream_dist in
  danube_gauges <- collect_upstream depth stream_dist 399 ;;
  _ <- py_assert (bool_decide (danube_gauges ⊆ connected_gauges)) ;;
  filtered <- filter_loop (walk danube_gauges) ∅ [] ;;
  let '(feasible_gauges, qobs_statistics) := filtered in
  _ <- py_assert (bool_decide (399 ∈ feasible_gauges)) ;;
  stream_dist <- removal_loop (walk (connected_gauges ∖ feasible_gauges)) stream_dist ;;
  Ok (merge_sort by_ID (with_slope <$> stream_dist), qobs_statistics).

End Process.

(** ** Reference definitions and sample inputs *)

(** The Gregorian leap-year rule. *)
Definition leap_year (year : Z) : bool :=
  bool_decide ((year `mod` 4 = 0 ∧ year `mod` 100 ≠ 0) ∨ year `mod` 400 = 0).

(** Hours of a calendar year. *)
Definition calendar_hours (year : Z) : Z :=
  if leap_year year then 8784 else 8760.

(** A persisted adjacency table with the single segment 1 → 399. *)
Definition sample_adjacency : list adjacency_row :=
  [ {| edge_of := {| ID := 1; NEXTDOWNID := 399; dist_hdn := 10; elev_diff := 5 |};
       strm_slope := 5 / 10 |} ].

(** Hourly files without rows. *)
Definition no_rows : Z → res (list hourly) := λ _, Ok [].

(** Statistics of the gauges 1 and 399, in the order of the gauge list. *)
Definition two_statistics : list (Z * Stat.row) :=
  [ (1, {| Stat.mean := 2; Stat.std := 4; Stat.min := 0;
           Stat.median := 2; Stat.max := 9 |});
    (399, {| Stat.mean := 3; Stat.std := 2; Stat.min := 1;
             Stat.median := 3; Stat.max := 5 |}) ].

(** Hourly files with the last two hours of 2000 and the first hour of
    2001: the discharges 6, 7, 8 at gauge 1 and 1, 2, 3 at any other
    gauge. *)
Definition sample_hours : Z → res (list hourly) :=
  λ g, let q (a b : R) := if decide (g = 1) then a else b in
       Ok [ {| YYYY := 2000; MM := 12; DD := 31; hh := 22; mm := 0;
               qobs := q 6 1 |};
            {| YYYY := 2000; MM := 12; DD := 31; hh := 23; mm := 0;
               qobs := q 7 2 |};
            {| YYYY := 2001; MM := 1; DD := 1; hh := 0; mm := 0;
               qobs := q 8 3 |} ]%R.

(** Hourly files with two hours of 1900 and one hour of 1901. *)
Definition century_hours : Z → res (list hourly) :=
  λ _, Ok [ {| YYYY := 1900; MM := 12; DD := 31; hh := 22; mm := 0; qobs := 6 |};
            {| YYYY := 1900; MM := 12; DD := 31; hh := 23; mm := 0; qobs := 7 |};
            {| YYYY := 1901; MM := 1; DD := 1; hh := 0; mm := 0; qobs := 8 |} ].

(** The dataset built over the years 2000 and 2001 with the default window,
    stride and lead time. *)
Definition sample_dataset : res LamaHDataset :=
  __init__ sample_hours sample_adjacency two_statistics [2000; 2001] 24 1 1 false.

(** What [sample_dataset] evaluates to. *)
Definition sample_ds : LamaHDataset :=
  {| window_size_hrs := 24; stride_length_hrs := 1; lead_time_hrs := 1;
     normalized := false; years := [2000; 2001];
     year_sizes := [8760; 8736];
     gauges := [1; 399];
     edge_index := [[0]; [1]];
     edge_attr := [[10; 5; 5 / 10]%R];
     mean := [[2]; [3]]%R; std := [[4]; [2]]%R;
     year_tensors := [[[6; 7]; [1; 2]]; [[8]; [3]]]%R |}.

(** A dataset of one gauge and one short year of four hours, with windows of
    two hours and a lead time of one hour. *)
Definition tiny_ds : LamaHDataset :=
  {| window_size_hrs := 2; stride_length_hrs := 1; lead_time_hrs := 1;
     normalized := false; years := [2001];
     year_sizes := [2];
     gauges := [399];
     edge_index := [[]; []];
     edge_attr := [];
     mean := [[3]]%R; std := [[2]]%R;
     year_tensors := [[[1; 2; 3; 4]%R]] |}.

(** The statistics table behind [tiny_ds]. *)
Definition tiny_statistics : list (Z * Stat.row) :=
  [ (399, {| Stat.mean := 3; Stat.std := 2; Stat.min := 1;
             Stat.median := 3; Stat.max := 5 |}) ].

(** ** The drainage relation *)

(** [flows sd a b]: the table has a row from gauge [a] to its next
    downstream gauge [b]. *)
Definition flows (stream_dist : list edge) (a b : Z) : Prop :=
  ∃ r, r ∈ stream_dist ∧ ID r = a ∧ NEXTDOWNID r = b.

(** No gauge lies downstream of itself. *)
Definition acyclic (stream_dist : list edge) : Prop :=
  ∀ g, ¬ tc (flows stream_dist) g g.

(** A gauge that no row of the table has as source or as target. *)
Definition absent (stream_dist : list edge) (g : Z) : Prop :=
  ∀ r, r ∈ stream_dist → ID r ≠ g ∧ NEXTDOWNID r ≠ g.

(** Every row of the second table joins two gauges that the first table
    connects by a path. *)
Definition shortcuts (original stream_dist : list edge) : Prop :=
  ∀ r, r ∈ stream_dist → tc (flows original) (ID r) (NEXTDOWNID r).

(** The chain 1 → 2 → 3 → 399. *)
Definition sample_chain : list edge :=
  [ {| ID := 1; NEXTDOWNID := 2; dist_hdn := 4; elev_diff := 2 |};
    {| ID := 2; NEXTDOWNID := 3; dist_hdn := 6; elev_diff := 3 |};
    {| ID := 3; NEXTDOWNID := 399; dist_hdn := 5; elev_diff := 1 |} ].

(** A stream table over five gauges: 1 → 2 → 399, 3 → 399 and 399 → 7. *)
Definition sample_stream : list edge :=
  [ {| ID := 1; NEXTDOWNID := 2; dist_hdn := 4; elev_diff := 2 |};
    {| ID := 2; NEXTDOWNID := 399; dist_hdn := 6; elev_diff := 3 |};
    {| ID := 3; NEXTDOWNID := 399; dist_hdn := 5; elev_diff := 1 |};
    {| ID := 399; NEXTDOWNID := 7; dist_hdn := 8; elev_diff := 2 |} ].

(** A rank that falls along every row of [sample_stream]. *)
Definition sample_rank (g : Z) : Z :=
  if decide (g = 7) then 0
  else if decide (g = 399) then 1
  else if decide (g = 2) then 2
  else 3.

(** A gauge whose file the filtering loop reads and finds feasible, with the
    row the loop stores for it. *)
Definition passes (read_hourly : Z → res (list hourly)) (g : Z) (s : Stat.row)
  : Prop :=
  ∃ ts, read_hourly g = Ok ts ∧ gauge_check ts = Ok (Some s).

(** ** A sample hourly series *)

(** One hour of 1999 with discharge 5, followed by the reference period
    with discharge 0 throughout: its first hour, [n] further hours and its
    last hour. *)
Definition early_hour : hourly :=
  {| YYYY := 1999; MM := 12; DD := 31; hh := 23; mm := 0; qobs := 5 |}.
Definition first_hour : hourly :=
  {| YYYY := 2000; MM := 1; DD := 1; hh := 0; mm := 0; qobs := 0 |}.
Definition inner_hour : hourly :=
  {| YYYY := 2008; MM := 6; DD := 15; hh := 12; mm := 0; qobs := 0 |}.
Definition last_hour : hourly :=
  {| YYYY := 2017; MM := 12; DD := 31; hh := 23; mm := 0; qobs := 0 |}.

Definition reference_series (n : nat) : list hourly :=
  (first_hour :: replicate n inner_hour) ++ [last_hour].

Definition long_series (n : nat) : list hourly :=
  early_hour :: reference_series n.

(** The number of hours of 2000-2017 between the first and the last. *)
Definition inner_hours : nat := Z.to_nat ((18 * 365 + 5) * 24 - 2).

(** Every gauge has the long series on file. *)
Definition read_long : Z → res (list hourly) :=
  λ _, Ok (long_series inner_hours).

(** Gauge 2 has an empty file, every other gauge the long series. *)
Definition read_chain : Z → res (list hourly) :=
  λ g, if decide (g = 2) then Ok [] else Ok (long_series inner_hours).

(** The raw table of the chain 1 → 2 → 399. *)
Definition raw_chain : list adjacency_row :=
  [ {| edge_of := {| ID := 1; NEXTDOWNID := 2; dist_hdn := 4; elev_diff := 2 |};
       strm_slope := 7 |};
    {| edge_of := {| ID := 2; NEXTDOWNID := 399; dist_hdn := 6; elev_diff := 3 |};
       strm_slope := 9 |} ].

(** ** Further sample inputs *)


(** A raw table with a cycle through the outlet: 399 → 5 → 399. *)
Definition cyclic_raw : list adjacency_row :=
  [ {| edge_of := {| ID := 399; NEXTDOWNID := 5; dist_hdn := 4; elev_diff := 2 |};
       strm_slope := 1 |};
    {| edge_of := {| ID := 5; NEXTDOWNID := 399; dist_hdn := 6; elev_diff := 3 |};
       strm_slope := 1 |} ].

(** A walk of sets in the opposite order of [elements]. *)
Definition walk_backwards (s : gset Z) : list Z := reverse (elements s).

(** ** Routes *)

(** [route sd a b d e]: the table has a path of rows from gauge [a] down to
    gauge [b] whose distances add up to [d] and whose elevation differences
    add up to [e]. *)
Inductive route (stream_dist : list edge) : Z → Z → R → R → Prop :=
  | route_row (r : edge) :
      r ∈ stream_dist →
      route stream_dist (ID r) (NEXTDOWNID r) (dist_hdn r) (elev_diff r)
  | route_join (a b c : Z) (d1 e1 d2 e2 : R) :
      route stream_dist a b d1 e1 →
      route stream_dist b c d2 e2 →
      route stream_dist a c (d1 + d2) (e1 + e2).

(** Every gauge has at most one next downstream gauge. *)
Definition single_outlet (stream_dist : list edge) : Prop :=
  ∀ a b b', flows stream_dist a b → flows stream_dist a b' → b = b'.

(** The order of [sort_values(by="ID")] compares any two rows and is
    transitive. *)
Global Instance by_ID_total : Total by_ID.
Proof. intros r1 r2. unfold by_ID. lia. Qed.

Global Instance by_ID_transitive : Transitive by_ID.
Proof. intros r1 r2 r3. unfold by_ID. lia. Qed.

(** ** Raw acquisition *)

(** The two sub-trees of the archive that the dataset needs. *)
Definition raw_file_names : list string :=
  ["B_basins_intermediate_all/1_attributes"; "D_gauges/2_timeseries"].

Definition processed_file_names : list string :=
  ["adjacency.csv"; "statistics.csv"].

(** [name.startswith(tuple(prefixes))] *)
Definition startswith (prefixes : list string) (name : string) : bool :=
  existsb (λ p, String.prefix p name) prefixes.

(** The members that [download] hands to [extractall], given the names of
    the members of the archive. *)
Definition extracted (members : list string) : list string :=
  filter (λ name, Is_true (startswith raw_file_names name)) members.

(** [raw_file_names[i]] *)
Definition raw_file_name (i : nat) : string := nth i raw_file_names "".

(** The stream table read by [process], relative to the raw directory. *)
Definition stream_dist_path : string :=
  raw_file_name 0 +:+ "/Stream_dist.csv".

(** The hourly file of a gauge read by [process] and by the constructor,
    relative to the raw directory. *)
Definition hourly_path (gauge_id : Z) : string :=
  raw_file_name 1 +:+ "/hourly/ID_" +:+ pretty gauge_id +:+ ".csv".

(** * Properties *)

(** ** Results *)

Lemma bind_Ok {A B} (m : res A) (f : A → res B) b :
  bind m f = Ok b → ∃ a, m = Ok a ∧ f a = Ok b.
Proof. destruct m as [a|e]; simpl; [eauto | discriminate]. Qed.

Ltac inv_bind H :=
  let a := fresh "a" in
  let Ha := fresh "Ha" in
  apply bind_Ok in H as (a & Ha & H).

Lemma mapM_res_Ok {A B} (f : A → res B) l l' :
  mapM_res f l = Ok l' → Forall2 (λ a b, f a = Ok b) l l'.
Proof.
  revert l'. induction l as [|a l IH]; intros l' H; simpl in H.
  - injection H as <-. constructor.
  - inv_bind H. inv_bind H. injection H as <-. constructor; auto.
Qed.


Lemma mapM_res_total {A B} (f : A → res B) (g : A → B) l :
  Forall (λ a, f a = Ok (g a)) l → mapM_res f l = Ok (map g l).
Proof.
  induction 1 as [|a l Ha _ IH]; simpl; [done|]. by rewrite Ha, IH.
Qed.

(** ** Sums of year sizes *)

Arguments py_sum : simpl never.

Lemma foldl_add_shift (l : list Z) (a : Z) : foldl Z.add a l = a + py_sum l.
Proof.
  unfold py_sum. revert a. induction l as [|b l IH]; intros a; simpl.
  - lia.
  - rewrite (IH (a + b)), (IH (0 + b)). lia.
Qed.

Lemma py_sum_nil : py_sum [] = 0.
Proof. reflexivity. Qed.

Lemma py_sum_cons (a : Z) (l : list Z) : py_sum (a :: l) = a + py_sum l.
Proof. unfold py_sum at 1. simpl. apply foldl_add_shift. Qed.

Lemma py_sum_app (l1 l2 : list Z) : py_sum (l1 ++ l2) = py_sum l1 + py_sum l2.
Proof.
  induction l1 as [|a l1 IH]; simpl.
  - rewrite py_sum_nil. lia.
  - rewrite !py_sum_cons, IH. lia.
Qed.

(** ** Decoding a flat index *)

(** The loop returns at the first position whose cumulative size exceeds the
    index, with the rank of the index inside that year. Nothing is assumed
    on the signs of the sizes. *)
Lemma decode_loop_hit (stride : Z) (sizes : list Z) :
  ∀ (i : nat) (idx : Z),
    0 ≤ idx < py_sum sizes →
    ∃ (k : nat) (size : Z),
      sizes !! k = Some size
      ∧ 0 ≤ idx - py_sum (take k sizes) < size
      ∧ (∀ k' : nat, (k' < k)%nat → py_sum (take (S k') sizes) ≤ idx)
      ∧ decode_loop stride sizes i idx
        = Ok ((i + k)%nat, stride * (idx - py_sum (take k sizes))).
Proof.
  induction sizes as [|size rest IH]; intros i idx Hlt.
  - rewrite py_sum_nil in Hlt. lia.
  - rewrite py_sum_cons in Hlt. simpl.
    destruct (decide (idx - size < 0)) as [Hhit|Hmiss].
    + exists 0%nat, size. simpl. rewrite py_sum_nil.
      repeat split; try lia.
      rewrite Nat.add_0_r. do 2 f_equal. lia.
    + destruct (IH (S i) (idx - size)) as (k & sz & Hk & Hr & Hfirst & Hdec);
        [lia|].
      exists (S k), sz. simpl. rewrite py_sum_cons.
      repeat split; try lia; auto.
      * intros [|k'] Hk'; simpl; rewrite ?take_0, ?py_sum_cons, ?py_sum_nil; [lia|].
        specialize (Hfirst k' ltac:(lia)). lia.
      * rewrite Hdec. do 2 f_equal; lia.
Qed.

(** ** Construction *)

Lemma torch_tensor_Ok {A B} (table : list A) (v w : B) :
  torch_tensor table v = Ok w → table ≠ [] ∧ w = v.
Proof. destruct table; [discriminate|]. by intros [= ->]. Qed.

Lemma mapM_res_weaken {A B} (f g : A → res B) (l : list A) (bs : list B) :
  (∀ a b, f a = Ok b → g a = Ok b) →
  mapM_res f l = Ok bs → mapM_res g l = Ok bs.
Proof.
  intros Hfg. revert bs. induction l as [|a l IH]; intros bs; simpl; [done|].
  intros H. apply bind_Ok in H as (b & Hb & H).
  apply bind_Ok in H as (bs' & Hbs & H). injection H as <-.
  by rewrite (Hfg _ _ Hb), (IH _ Hbs).
Qed.

Lemma init_Ok read adjacency statistics ys w s l norm ds :
  __init__ read adjacency statistics ys w s l norm = Ok ds →
  ∃ cols dfs,
    mapM_res (year_size w s l) ys = Ok (year_sizes ds)
    ∧ edge_cols (rev_index (gauge_list adjacency)) adjacency = Ok cols
    ∧ mapM_res (load_gauge read statistics norm) (gauge_list adjacency) = Ok dfs
    ∧ mapM_res (λ year, torch_stack (year_values year <$> dfs)) ys
      = Ok (year_tensors ds)
    ∧ window_size_hrs ds = w ∧ stride_length_hrs ds = s ∧ lead_time_hrs ds = l
    ∧ years ds = ys
    ∧ gauges ds = gauge_list adjacency
    ∧ edge_index ds = transpose2 cols.
Proof.
  unfold __init__. intros H.
  apply bind_Ok in H as (sizes & Hsizes & H).
  apply bind_Ok in H as (cols & Hcols & H).
  apply bind_Ok in H as (edges & Hedges & H).
  apply bind_Ok in H as (weights & Hweights & H).
  apply bind_Ok in H as (means & Hmeans & H).
  apply bind_Ok in H as (stds & Hstds & H).
  apply bind_Ok in H as (dfs & Hdfs & H).
  apply bind_Ok in H as (tensors & Htensors & H).
  apply torch_tensor_Ok in Hedges as [_ ->].
  injection H as <-. simpl. exists cols, dfs. repeat split; try assumption.
  revert Hdfs. apply mapM_res_weaken. intros g df Hg.
  apply bind_Ok in Hg as (df' & Hload & Hg).
  apply bind_Ok in Hg as (rows & _ & Hg). by injection Hg as <-.
Qed.




Lemma init_lengths read adjacency statistics ys w s l norm ds :
  __init__ read adjacency statistics ys w s l norm = Ok ds →
  length (year_sizes ds) = length ys ∧ length (year_tensors ds) = length ys.
Proof.
  intros H. apply init_Ok in H as (cols & dfs & Hs & _ & _ & Ht & _).
  apply mapM_res_Ok, Forall2_length in Hs.
  apply mapM_res_Ok, Forall2_length in Ht. split; congruence.
Qed.

(** ** C1, C9: decoding *)

(** C1. On a constructed dataset whose per-year sizes are all positive, every
    flat index [0 ≤ idx < len] decodes to the tensor at a year position [j]
    and to the offset [stride_length_hrs * r], where [r] is [idx] minus the
    sizes of the years before [j]; [r] is a rank inside year [j], and adding
    it back to that prefix sum gives [idx] again. *)
Theorem decode_index_roundtrip read adjacency statistics ys w s l norm ds idx :
  __init__ read adjacency statistics ys w s l norm = Ok ds →
  Forall (λ size, 0 < size) (year_sizes ds) →
  0 ≤ idx < len ds →
  ∃ (j : nat) (t : tensor2) (size r : Z),
    year_tensors ds !! j = Some t
    ∧ year_sizes ds !! j = Some size
    ∧ r = idx - py_sum (take j (year_sizes ds))
    ∧ 0 ≤ r < size
    ∧ _decode_index ds idx = Ok (t, stride_length_hrs ds * r)
    ∧ encode_index (year_sizes ds) j r = idx
    ∧ (stride_length_hrs ds ≠ 0 →
       encode_index (year_sizes ds) j
         ((stride_length_hrs ds * r) `div` stride_length_hrs ds) = idx).
Proof.
  intros Hinit _ Hidx. apply init_lengths in Hinit as [Hls Hlt].
  destruct (decode_loop_hit (stride_length_hrs ds) (year_sizes ds) 0 idx Hidx)
    as (j & size & Hj & Hr & _ & Hdec).
  destruct (lookup_lt_is_Some_2 (year_tensors ds) j) as [t Ht].
  { apply lookup_lt_Some in Hj. lia. }
  exists j, t, size, (idx - py_sum (take j (year_sizes ds))).
  repeat split; try assumption; try lia.
  - unfold _decode_index. rewrite Hdec. simpl. by rewrite Ht.
  - unfold encode_index. lia.
  - intros Hs. rewrite Z.mul_comm, Z.div_mul by done. unfold encode_index. lia.
Qed.

Lemma decode_index_roundtrip_witness :
  ∃ ds, sample_dataset = Ok ds
    ∧ ∃ (j : nat) (t : tensor2) (size r : Z),
        year_tensors ds !! j = Some t
        ∧ year_sizes ds !! j = Some size
        ∧ r = 9000 - py_sum (take j (year_sizes ds))
        ∧ 0 ≤ r < size
        ∧ _decode_index ds 9000 = Ok (t, stride_length_hrs ds * r)
        ∧ encode_index (year_sizes ds) j r = 9000
        ∧ (stride_length_hrs ds ≠ 0 →
           encode_index (year_sizes ds) j
             ((stride_length_hrs ds * r) `div` stride_length_hrs ds) = 9000).
Proof.
  eexists. split; [vm_compute; reflexivity|].
  eapply (decode_index_roundtrip sample_hours sample_adjacency two_statistics [2000; 2001] 24 1 1 false).
  - vm_compute; reflexivity.
  - simpl. repeat constructor.
  - vm_compute. split; [discriminate | reflexivity].
Defined.

(** C9. For every flat index [0 ≤ idx < len] over positive year sizes, the
    loop of [_decode_index] returns from a position inside the list of year
    sizes, and [_decode_index] does not raise the assertion error. *)
Theorem decode_index_no_assertion_error (ds : LamaHDataset) (idx : Z) :
  Forall (λ size, 0 < size) (year_sizes ds) →
  0 ≤ idx < len ds →
  (∃ (j : nat) (offset : Z),
      (j < length (year_sizes ds))%nat
      ∧ decode_loop (stride_length_hrs ds) (year_sizes ds) 0 idx = Ok (j, offset))
  ∧ _decode_index ds idx ≠ Raise AssertionError.
Proof.
  intros _ Hidx.
  destruct (decode_loop_hit (stride_length_hrs ds) (year_sizes ds) 0 idx Hidx)
    as (j & size & Hj & _ & _ & Hdec).
  split.
  - exists j. eexists. split; [by eapply lookup_lt_Some | exact Hdec].
  - unfold _decode_index. rewrite Hdec. simpl.
    destruct (year_tensors ds !! j); discriminate.
Qed.

Lemma decode_index_no_assertion_error_witness :
  (∃ (j : nat) (offset : Z),
      (j < length (year_sizes sample_ds))%nat
      ∧ decode_loop (stride_length_hrs sample_ds) (year_sizes sample_ds) 0 9000
        = Ok (j, offset))
  ∧ _decode_index sample_ds 9000 ≠ Raise AssertionError.
Proof.
  apply (decode_index_no_assertion_error sample_ds 9000).
  - simpl. repeat constructor.
  - vm_compute. split; [discriminate | reflexivity].
Defined.

(** ** C4: per-year sample counts *)

Lemma year_size_Ok w s l year size :
  year_size w s l year = Ok size →
  s ≠ 0 ∧ size = (hours_in_year year - w - l) `div` s + 1.
Proof.
  unfold year_size, py_floordiv. destruct (decide (s = 0)); simpl; [discriminate|].
  intros [= <-]. split; [assumption|]. do 2 f_equal. lia.
Qed.

Lemma hours_in_year_cases year :
  hours_in_year year = if decide (year `mod` 4 = 0) then 8784 else 8760.
Proof.
  unfold hours_in_year.
  destruct (decide (year `mod` 4 = 0)) as [H|H].
  - by rewrite bool_decide_eq_true_2.
  - by rewrite bool_decide_eq_false_2.
Qed.

Lemma hours_in_year_calendar year :
  1901 ≤ year ≤ 2099 → hours_in_year year = calendar_hours year.
Proof.
  intros Hy. rewrite hours_in_year_cases. unfold calendar_hours, leap_year.
  destruct (decide (year `mod` 4 = 0)) as [H4|H4].
  - rewrite bool_decide_eq_true_2; [done|].
    destruct (decide (year = 2000)) as [->|Hne]; [by right|].
    left. split; [done|]. intros H100.
    pose proof (Z.div_mod year 100 ltac:(lia)).
    assert (year `div` 100 = 19 ∨ year `div` 100 = 20) as [Hq|Hq]
      by (pose proof (Z.div_le_mono 1901 year 100 ltac:(lia) ltac:(lia));
          pose proof (Z.div_le_mono year 2099 100 ltac:(lia) ltac:(lia));
          change (1901 `div` 100) with 19 in *;
          change (2099 `div` 100) with 20 in *; lia); lia.
  - rewrite bool_decide_eq_false_2; [done|].
    intros [[? _]|H400]; [done|].
    apply H4. pose proof (Z.div_mod year 400 ltac:(lia)).
    pose proof (Z.div_mod year 4 ltac:(lia)).
    pose proof (Z.mod_pos_bound year 4 ltac:(lia)). lia.
Qed.

(** C4 (as amended). For every configured year, the per-year sample count
    computed at construction is [floor((hours - window_size - lead_time) /
    stride) + 1], where [hours] is 8784 when the year is divisible by 4 and
    8760 otherwise; this is the calendar's number of hours for every year
    from 1901 to 2099. [len] is the sum of these counts over the configured
    years. *)
Theorem year_sizes_formula read adjacency statistics ys w s l norm ds :
  __init__ read adjacency statistics ys w s l norm = Ok ds →
  year_sizes ds
  = map (λ year,
           ((if decide (year `mod` 4 = 0) then 8784 else 8760) - w - l) `div` s + 1)
        ys
  ∧ (∀ (i : nat) (year : Z),
        ys !! i = Some year → 1901 ≤ year ≤ 2099 →
        year_sizes ds !! i = Some ((calendar_hours year - w - l) `div` s + 1))
  ∧ len ds
    = py_sum
        (map (λ year,
                ((if decide (year `mod` 4 = 0) then 8784 else 8760) - w - l) `div` s + 1)
             ys).
Proof.
  intros Hinit. apply init_Ok in Hinit as (_ & _ & Hs & _).
  apply mapM_res_Ok in Hs.
  assert (year_sizes ds
          = map (λ year,
                   ((if decide (year `mod` 4 = 0) then 8784 else 8760) - w - l)
                     `div` s + 1) ys) as Heq.
  { induction Hs as [|year size ys' sizes Hy _ IH]; simpl; [done|].
    apply year_size_Ok in Hy as [_ ->].
    by rewrite hours_in_year_cases, IH. }
  split; [exact Heq|]. split.
  - intros i year Hi Hy. rewrite Heq, list_lookup_fmap, Hi. simpl.
    by rewrite <- hours_in_year_cases, hours_in_year_calendar.
  - unfold len. by rewrite Heq.
Qed.

Lemma year_sizes_formula_witness :
  ∃ ds, sample_dataset = Ok ds
    ∧ year_sizes ds = [8760; 8736]
    ∧ len ds = 17496.
Proof.
  exists sample_ds. split; [vm_compute; reflexivity|].
  destruct (year_sizes_formula sample_hours sample_adjacency two_statistics [2000; 2001] 24 1 1 false
              sample_ds ltac:(vm_compute; reflexivity)) as (Hs & _ & Hl).
  split; [exact Hs | exact Hl].
Defined.

(** C4 fails as stated at a century year that is not a leap year: the
    constructor counts 1900 as a year of 8784 hours. *)
Lemma year_sizes_century_year :
  ∃ ds, __init__ century_hours sample_adjacency two_statistics [1900] 24 1 1 false = Ok ds
    ∧ year_sizes ds = [8760]
    ∧ year_sizes ds ≠ [(calendar_hours 1900 - 24 - 1) `div` 1 + 1].
Proof.
  eexists. split; [vm_compute; reflexivity|]. split; [reflexivity|].
  vm_compute. discriminate.
Qed.

(** ** C6: the sample window and its target *)

Lemma slice_bound_inside (n : nat) (a : Z) :
  0 ≤ a ≤ Z.of_nat n → slice_bound n a = Z.to_nat a.
Proof.
  intros Ha. unfold slice_bound.
  destruct (decide (a < 0)); [lia|]. f_equal. lia.
Qed.

Lemma py_slice_inside {A} (a b : Z) (row : list A) :
  0 ≤ a ≤ b → b ≤ Z.of_nat (length row) →
  py_slice a b row = take (Z.to_nat (b - a)) (drop (Z.to_nat a) row).
Proof.
  intros Hab Hb. unfold py_slice.
  rewrite !slice_bound_inside by lia. f_equal. lia.
Qed.

Lemma index_col_inside (k : Z) (t : tensor2) :
  0 ≤ k < Z.of_nat (ncols t) →
  Forall (λ row, length row = ncols t) t →
  index_col k t = Ok ((λ row, nth (Z.to_nat k) row 0%R) <$> t).
Proof.
  intros Hk Hrect. unfold index_col.
  destruct (decide (- Z.of_nat (ncols t) ≤ k < Z.of_nat (ncols t))); [|lia].
  destruct (decide (k < 0)); [lia|].
  apply mapM_res_total. eapply Forall_impl; [exact Hrect|].
  intros row Hrow. simpl in *.
  destruct (lookup_lt_is_Some_2 row (Z.to_nat k)) as [v Hv]; [lia|].
  rewrite Hv. f_equal. symmetry. by apply nth_lookup_Some.
Qed.

(** What [get] returns once the index is decoded, for an offset at which the
    window and its target fit into the year tensor. *)
Lemma get_decoded (ds : LamaHDataset) (idx : Z) (t : tensor2) (offset : Z) :
  _decode_index ds idx = Ok (t, offset) →
  1 ≤ lead_time_hrs ds →
  0 ≤ window_size_hrs ds →
  0 ≤ offset →
  Forall (λ row, length row = ncols t) t →
  offset + window_size_hrs ds + lead_time_hrs ds ≤ Z.of_nat (ncols t) →
  get ds idx
  = Ok {| x := (λ row, take (Z.to_nat (window_size_hrs ds))
                         (drop (Z.to_nat offset) row)) <$> t;
          y := (λ row, [nth (Z.to_nat (offset + window_size_hrs ds
                                         + lead_time_hrs ds - 1)) row 0%R]) <$> t;
          data_edge_index := edge_index ds;
          data_edge_attr := edge_attr ds |}.
Proof.
  intros Hdec Hl Hw Ho Hrect Hfit. unfold get. rewrite Hdec. simpl.
  rewrite index_col_inside by (assumption || lia). simpl.
  f_equal. f_equal.
  - unfold slice_cols. apply Forall_fmap_ext_1.
    eapply Forall_impl; [exact Hrect|]. intros row Hrow. simpl in *.
    rewrite py_slice_inside by lia. do 2 f_equal. lia.
  - unfold unsqueeze. rewrite <- list_fmap_compose.
    apply list_fmap_ext. intros _ row _. simpl. do 3 f_equal. lia.
Qed.

(** The last window of a year ends inside the year. *)
Lemma window_fits (s w l hours r : Z) :
  0 < s → 0 ≤ r < (hours - (w + l)) `div` s + 1 → s * r + w + l ≤ hours.
Proof.
  intros Hs Hr.
  pose proof (Z.mul_div_le (hours - (w + l)) s Hs).
  assert (s * r ≤ s * ((hours - (w + l)) `div` s))
    by (apply Z.mul_le_mono_nonneg_l; lia).
  lia.
Qed.

(** On year tensors that hold every hour of their year, [get] returns a
    sample for every valid flat index. *)
Lemma get_on_complete_years (ds : LamaHDataset) (idx : Z) :
  0 < stride_length_hrs ds →
  0 ≤ window_size_hrs ds →
  1 ≤ lead_time_hrs ds →
  0 ≤ idx < len ds →
  Forall2
    (λ (size : Z) (t : list (list R)),
       ∃ year,
         year_size (window_size_hrs ds) (stride_length_hrs ds)
           (lead_time_hrs ds) year = Ok size
         ∧ t ≠ []
         ∧ Forall (λ row, Z.of_nat (length row) = hours_in_year year) t)
    (year_sizes ds) (year_tensors ds) →
  ∃ d : Data, get ds idx = Ok d.
Proof.
  intros Hs Hw Hl Hidx Hyears.
  destruct (decode_loop_hit (stride_length_hrs ds) (year_sizes ds) 0 idx Hidx)
    as (j & size & Hj & Hr & _ & Hdec).
  destruct (Forall2_lookup_l _ _ _ _ _ Hyears Hj)
    as (t & Ht & year & Hsize & Hne & Hrows).
  unfold year_size, py_floordiv in Hsize.
  destruct (decide (stride_length_hrs ds = 0)); [lia|].
  simpl in Hsize. injection Hsize as <-.
  assert (Z.of_nat (ncols t) = hours_in_year year) as Hcols.
  { destruct t as [|row t]; [done|]. by inversion Hrows. }
  eexists. apply get_decoded with (t := t).
  - unfold _decode_index. rewrite Hdec. simpl. by rewrite Ht.
  - done.
  - done.
  - apply Z.mul_nonneg_nonneg; lia.
  - eapply Forall_impl; [exact Hrows|]. intros row Hrow. simpl in Hrow. lia.
  - rewrite Hcols. by apply window_fits.
Qed.

(** C6 (as amended). When a flat index decodes to a rectangular year tensor
    and an offset that is not negative, the window size is not negative, the
    lead time is at least one hour and [offset + window_size + lead_time] is
    at most the number of columns of the year tensor,
    [get] returns a sample whose input holds, for every gauge, exactly the
    columns [offset, offset + window_size) of the year tensor, and whose
    target is the single column [offset + window_size + lead_time - 1].
    A year of 8760 hours with a window of 24, a lead time of 6 and stride 1
    has 8731 samples, and there the sample at index 0 reads hours [0, 24)
    and targets hour 29. *)
Theorem get_window_and_target (ds : LamaHDataset) (idx : Z) (t : tensor2)
    (offset : Z) :
  _decode_index ds idx = Ok (t, offset) →
  1 ≤ lead_time_hrs ds →
  0 ≤ window_size_hrs ds →
  0 ≤ offset →
  Forall (λ row, length row = ncols t) t →
  offset + window_size_hrs ds + lead_time_hrs ds ≤ Z.of_nat (ncols t) →
  (∃ d : Data,
      get ds idx = Ok d
      ∧ length (x d) = length t ∧ length (y d) = length t
      ∧ data_edge_index d = edge_index ds ∧ data_edge_attr d = edge_attr ds
      ∧ ∀ (g : nat) (row : list R),
          t !! g = Some row →
          (∃ xrow, x d !! g = Some xrow
             ∧ Z.of_nat (length xrow) = window_size_hrs ds
             ∧ ∀ c : nat, Z.of_nat c < window_size_hrs ds →
                 xrow !! c = row !! (Z.to_nat offset + c)%nat)
          ∧ (∃ v, row !! Z.to_nat (offset + window_size_hrs ds
                                   + lead_time_hrs ds - 1) = Some v
                ∧ y d !! g = Some [v]))
  ∧ year_size 24 1 6 2001 = Ok 8731
  ∧ (∀ (ds' : LamaHDataset) (t' : tensor2),
        window_size_hrs ds' = 24 → lead_time_hrs ds' = 6 →
        stride_length_hrs ds' = 1 →
        year_sizes ds' = [8731] → year_tensors ds' = [t'] →
        ncols t' = Z.to_nat 8760 → Forall (λ row, length row = ncols t') t' →
        ∃ d : Data,
          get ds' 0 = Ok d
          ∧ x d = take 24 <$> t'
          ∧ y d = (λ row, [nth 29 row 0%R]) <$> t').
Proof.
  intros Hdec Hl Hw Ho Hrect Hfit. split; [|split].
  - eexists. split; [by apply get_decoded|]. simpl.
    rewrite !length_fmap. do 4 (split; [reflexivity|]).
    intros g row Hg.
    assert (length row = ncols t) as Hrow
      by (eapply Forall_lookup_1 in Hrect; eauto).
    split.
    + eexists. split; [rewrite list_lookup_fmap, Hg; reflexivity|].
      split.
      * rewrite length_take, length_drop. lia.
      * intros c Hc. rewrite lookup_take_lt by lia. by rewrite lookup_drop.
    + destruct (lookup_lt_is_Some_2 row
                  (Z.to_nat (offset + window_size_hrs ds + lead_time_hrs ds - 1)))
        as [v Hv]; [lia|].
      exists v. split; [exact Hv|].
      rewrite list_lookup_fmap, Hg. simpl. by rewrite (nth_lookup_Some _ _ _ _ Hv).
  - reflexivity.
  - intros ds' t' Hw' Hl' Hs' Hsizes Htens Hcols Hrect'.
    eexists. split.
    + apply get_decoded with (t := t') (offset := 0); rewrite ?Hw', ?Hl'; try lia.
      * unfold _decode_index. rewrite Hsizes, Hs', Htens. reflexivity.
      * assumption.
    + simpl. rewrite Hw', Hl'. split.
      * apply list_fmap_ext. intros _ row _. reflexivity.
      * reflexivity.
Qed.

Lemma get_window_and_target_witness :
  ∃ d : Data,
    get tiny_ds 1 = Ok d
    ∧ x d = [[2; 3]%R] ∧ y d = [[4%R]].
Proof.
  destruct (get_window_and_target tiny_ds 1 [[1; 2; 3; 4]%R] 1)
    as ((d & Hget & _) & _); try (vm_compute; done).
  - repeat constructor.
  - exists d. split; [exact Hget|].
    assert (Ok d = get tiny_ds 1) as Heq by (symmetry; exact Hget).
    vm_compute in Heq. injection Heq as ->. split; reflexivity.
Defined.

(** C6 fails as stated when the year tensor is shorter than the window and
    its target need: the files of [sample_dataset] hold two hours of 2000,
    the flat index 0 is valid and decodes to the tensor of 2000 at offset 0,
    and [get] raises the index error instead of returning a sample. *)
Lemma get_window_outside_tensor :
  ∃ (ds : LamaHDataset) (t : tensor2),
    sample_dataset = Ok ds
    ∧ 0 ≤ 0 < len ds
    ∧ 1 ≤ lead_time_hrs ds
    ∧ _decode_index ds 0 = Ok (t, 0)
    ∧ ncols t = 2%nat
    ∧ get ds 0 = Raise IndexError.
Proof.
  exists sample_ds, [[6; 7]; [1; 2]]%R.
  split; [vm_compute; reflexivity|].
  split; [vm_compute; split; [discriminate | reflexivity]|].
  split; [vm_compute; discriminate|].
  split; [vm_compute; reflexivity|].
  split; [reflexivity|].
  vm_compute. reflexivity.
Qed.

(** ** C7: normalisation *)

(** Application of a per-gauge scalar along the hours of each row. *)
Local Abbreviation rowwise f xs cs :=
  (zip_with (λ (row : list R) (c : R), (λ v, f v c) <$> row) xs cs).

Lemma ncols_rect (t : tensor2) (T : nat) :
  t ≠ [] → Forall (λ row, length row = T) t → ncols t = T.
Proof. destruct t as [|r t]; [done|]. intros _ H. by inversion H. Qed.

Lemma ncols_column (cs : list R) :
  cs ≠ [] → ncols ((λ c, [c]) <$> cs) = 1%nat.
Proof. by destruct cs. Qed.

Lemma broadcast_size_one (T : nat) : broadcast_size T 1 = Ok T.
Proof.
  unfold broadcast_size. repeat case_decide; subst; try done.
Qed.

Lemma broadcast_size_one_l (T : nat) : broadcast_size 1 T = Ok T.
Proof.
  unfold broadcast_size. repeat case_decide; subst; try done.
Qed.

Lemma broadcast_size_same (n : nat) : broadcast_size n n = Ok n.
Proof. unfold broadcast_size. by case_decide. Qed.

Lemma expand_axis_same {A} (n : nat) (l : list A) :
  length l = n → expand_axis n l = l.
Proof. intros H. unfold expand_axis. by case_decide. Qed.

Lemma expand_axis_one (T : nat) (c : R) : expand_axis T [c] = replicate T c.
Proof.
  unfold expand_axis. case_decide as H; [|done]. simpl in H. by subst.
Qed.

Lemma expand_rect (T : nat) (t : tensor2) :
  Forall (λ row, length row = T) t →
  expand_axis (length t) (expand_axis T <$> t) = t.
Proof.
  intros H. rewrite expand_axis_same by (by rewrite length_fmap).
  rewrite <- (list_fmap_id t) at 2. apply Forall_fmap_ext_1.
  eapply Forall_impl; [exact H|]. intros row Hrow. by apply expand_axis_same.
Qed.

Lemma expand_column (T : nat) (cs : list R) :
  expand_axis (length cs) (expand_axis T <$> ((λ c, [c]) <$> cs))
  = replicate T <$> cs.
Proof.
  rewrite expand_axis_same by (by rewrite !length_fmap).
  rewrite <- list_fmap_compose. apply list_fmap_ext.
  intros _ c _. apply expand_axis_one.
Qed.

Lemma zip_with_replicate_r (f : R → R → R) (row : list R) (c : R) :
  zip_with f row (replicate (length row) c) = (λ v, f v c) <$> row.
Proof. induction row as [|v row IH]; simpl; [done|]. by rewrite IH. Qed.

Lemma zip_with_replicate_l (f : R → R → R) (row : list R) (c : R) :
  zip_with f (replicate (length row) c) row = (λ v, f c v) <$> row.
Proof. induction row as [|v row IH]; simpl; [done|]. by rewrite IH. Qed.

(** A tensor of shape (G, T) against a column of shape (G, 1). *)
Lemma elementwise_column (f : R → R → R) (t : tensor2) (cs : list R) (T : nat) :
  length t = length cs →
  Forall (λ row, length row = T) t →
  elementwise f t ((λ c, [c]) <$> cs) = Ok (rowwise f t cs).
Proof.
  intros Hlen Hrect. unfold elementwise.
  rewrite length_fmap, <- Hlen, broadcast_size_same. simpl.
  destruct (decide (t = [])) as [->|Hne].
  { destruct cs; [done|discriminate]. }
  rewrite (ncols_rect t T), ncols_column, broadcast_size_one; try done.
  2:{ intros ->. by destruct t. }
  simpl. rewrite (expand_rect T t Hrect), Hlen, expand_column. f_equal.
  clear Hne. revert cs Hlen.
  induction Hrect as [|row t Hrow _ IH]; intros [|c cs] Hlen; try done.
  simpl. f_equal.
  - rewrite <- Hrow. apply zip_with_replicate_r.
  - apply IH. simpl in Hlen. lia.
Qed.

(** A column of shape (G, 1) against a tensor of shape (G, T). *)
Lemma elementwise_column_l (f : R → R → R) (t : tensor2) (cs : list R) (T : nat) :
  length t = length cs →
  Forall (λ row, length row = T) t →
  elementwise f ((λ c, [c]) <$> cs) t = Ok (rowwise (λ v c, f c v) t cs).
Proof.
  intros Hlen Hrect. unfold elementwise.
  rewrite length_fmap, <- Hlen, broadcast_size_same. simpl.
  destruct (decide (t = [])) as [->|Hne].
  { destruct cs; [done|discriminate]. }
  rewrite (ncols_rect t T), ncols_column, broadcast_size_one_l; try done.
  2:{ intros ->. by destruct t. }
  simpl. rewrite (expand_rect T t Hrect), Hlen, expand_column. f_equal.
  clear Hne. revert cs Hlen.
  induction Hrect as [|row t Hrow _ IH]; intros [|c cs] Hlen; try done.
  simpl. f_equal.
  - rewrite <- Hrow. apply zip_with_replicate_l.
  - apply IH. simpl in Hlen. lia.
Qed.

Lemma rowwise_length (f : R → R → R) (t : tensor2) (cs : list R) :
  length t = length cs → length (rowwise f t cs) = length cs.
Proof. intros H. rewrite length_zip_with. lia. Qed.

Lemma rowwise_rect (f : R → R → R) (t : tensor2) (cs : list R) (T : nat) :
  Forall (λ row, length row = T) t →
  Forall (λ row, length row = T) (rowwise f t cs).
Proof.
  intros H. revert cs. induction H as [|row t Hrow _ IH]; intros [|c cs];
    simpl; constructor; [by rewrite length_fmap | apply IH].
Qed.

Lemma rowwise_twice (f1 f2 : R → R → R) (a b : Stat.row → R)
    (t : tensor2) (statistics : list (Z * Stat.row)) :
  rowwise f2 (rowwise f1 t ((λ p, a p.2) <$> statistics))
             ((λ p, b p.2) <$> statistics)
  = zip_with (λ (row : list R) (p : Z * Stat.row),
                (λ v, f2 (f1 v (a p.2)) (b p.2)) <$> row) t statistics.
Proof.
  revert statistics. induction t as [|row t IH]; intros [|p statistics];
    simpl; try done.
  rewrite IH. f_equal. rewrite <- list_fmap_compose. done.
Qed.

Lemma zip_with_inverse (g h : Z * Stat.row → R → R)
    (t : tensor2) (statistics : list (Z * Stat.row)) :
  length t = length statistics →
  Forall (λ p, ∀ v, g p (h p v) = v) statistics →
  zip_with (λ (row : list R) p, g p <$> row)
    (zip_with (λ (row : list R) p, h p <$> row) t statistics) statistics
  = t.
Proof.
  intros Hlen Hinv. revert t Hlen.
  induction Hinv as [|p statistics Hp _ IH]; intros [|row t] Hlen;
    simpl in *; try done.
  rewrite IH by lia. f_equal.
  rewrite <- list_fmap_compose. rewrite <- (list_fmap_id row) at 2.
  apply list_fmap_ext. intros _ v _. apply Hp.
Qed.

Lemma column_of (a : Stat.row → R) (statistics : list (Z * Stat.row)) :
  (λ p, [a p.2]) <$> statistics = (λ c, [c]) <$> ((λ p, a p.2) <$> statistics).
Proof. by rewrite <- list_fmap_compose. Qed.

Section Normalisation.

Variable ds : LamaHDataset.
Variable statistics : list (Z * Stat.row).

(** The two columns are the ones the constructor reads from the
    statistics table: one scalar per gauge. *)
Hypothesis mean_column : mean ds = (λ p, [Stat.mean p.2]) <$> statistics.
Hypothesis std_column : std ds = (λ p, [Stat.std p.2]) <$> statistics.

Lemma normalize_rows (t : tensor2) (T : nat) :
  length t = length statistics →
  Forall (λ row, length row = T) t →
  normalize ds t
  = Ok (zip_with (λ (row : list R) (p : Z * Stat.row),
                    (λ v, (v - Stat.mean p.2) / Stat.std p.2)%R <$> row)
          t statistics).
Proof.
  intros Hlen Hrect. unfold normalize. rewrite mean_column, std_column.
  rewrite (column_of Stat.mean), (column_of Stat.std).
  rewrite (elementwise_column _ _ _ T) by (by rewrite ?length_fmap).
  simpl.
  rewrite (elementwise_column _ _ _ T).
  - f_equal.
    apply (rowwise_twice Rminus Rdiv Stat.mean Stat.std).
  - rewrite length_zip_with, !length_fmap. lia.
  - by apply rowwise_rect.
Qed.

Lemma denormalize_rows (t : tensor2) (T : nat) :
  length t = length statistics →
  Forall (λ row, length row = T) t →
  denormalize ds t
  = Ok (zip_with (λ (row : list R) (p : Z * Stat.row),
                    (λ v, Stat.std p.2 * v + Stat.mean p.2)%R <$> row)
          t statistics).
Proof.
  intros Hlen Hrect. unfold denormalize. rewrite mean_column, std_column.
  rewrite (column_of Stat.mean), (column_of Stat.std).
  rewrite (elementwise_column_l _ _ _ T) by (by rewrite ?length_fmap).
  simpl.
  rewrite (elementwise_column _ _ _ T).
  - f_equal.
    apply (rowwise_twice (λ v c, c * v)%R Rplus Stat.std Stat.mean).
  - rewrite length_zip_with, !length_fmap. lia.
  - by apply rowwise_rect.
Qed.

End Normalisation.

Lemma zip_with_rows_rect (h : Z * Stat.row → R → R) (t : tensor2)
    (statistics : list (Z * Stat.row)) (T : nat) :
  Forall (λ row, length row = T) t →
  Forall (λ row, length row = T)
    (zip_with (λ (row : list R) p, h p <$> row) t statistics).
Proof.
  intros H. revert statistics.
  induction H as [|row t' Hrow _ IH]; intros [|p st]; simpl;
    constructor; [by rewrite length_fmap | apply IH].
Qed.

(** C7. For every tensor [t] with one row per gauge and every stored
    per-gauge mean and standard deviation with non-zero standard deviations,
    [normalize] computes [(v - mean) / std] and [denormalize] computes
    [std * v + mean] on the entries of each gauge, and over the real numbers
    each undoes the other. *)
Theorem normalize_denormalize_inverse (ds : LamaHDataset)
    (statistics : list (Z * Stat.row)) (t : tensor2) (T : nat) :
  mean ds = (λ p, [Stat.mean p.2]) <$> statistics →
  std ds = (λ p, [Stat.std p.2]) <$> statistics →
  Forall (λ p, Stat.std p.2 ≠ 0%R) statistics →
  length t = length statistics →
  Forall (λ row, length row = T) t →
  (∃ n d : tensor2,
      n = zip_with (λ (row : list R) (p : Z * Stat.row),
                      (λ v, (v - Stat.mean p.2) / Stat.std p.2)%R <$> row)
            t statistics
      ∧ d = zip_with (λ (row : list R) (p : Z * Stat.row),
                        (λ v, Stat.std p.2 * v + Stat.mean p.2)%R <$> row)
              t statistics
      ∧ normalize ds t = Ok n ∧ denormalize ds n = Ok t
      ∧ denormalize ds t = Ok d ∧ normalize ds d = Ok t).
Proof.
  intros Hmean Hstd Hnz Hlen Hrect.
  eexists _, _. split; [reflexivity|]. split; [reflexivity|].
  assert (∀ (h : Z * Stat.row → R → R),
             length (zip_with (λ (row : list R) p, h p <$> row) t statistics)
             = length statistics) as Hl.
  { intros h. rewrite length_zip_with. lia. }
  assert (∀ (h : Z * Stat.row → R → R),
             Forall (λ row, length row = T)
               (zip_with (λ (row : list R) p, h p <$> row) t statistics)) as Hr.
  { intros h. by apply zip_with_rows_rect. }
  repeat split.
  - by apply (normalize_rows ds statistics Hmean Hstd t T).
  - rewrite (denormalize_rows ds statistics Hmean Hstd _ T);
      [|apply (Hl (λ p v, (v - Stat.mean p.2) / Stat.std p.2)%R)
       |apply (Hr (λ p v, (v - Stat.mean p.2) / Stat.std p.2)%R)].
    f_equal.
    apply (zip_with_inverse (λ p v, Stat.std p.2 * v + Stat.mean p.2)%R
             (λ p v, (v - Stat.mean p.2) / Stat.std p.2)%R); [done|].
    eapply Forall_impl; [exact Hnz|]. intros p Hp v. simpl. by field.
  - by apply (denormalize_rows ds statistics Hmean Hstd t T).
  - rewrite (normalize_rows ds statistics Hmean Hstd _ T);
      [|apply (Hl (λ p v, Stat.std p.2 * v + Stat.mean p.2)%R)
       |apply (Hr (λ p v, Stat.std p.2 * v + Stat.mean p.2)%R)].
    f_equal.
    apply (zip_with_inverse (λ p v, (v - Stat.mean p.2) / Stat.std p.2)%R
             (λ p v, Stat.std p.2 * v + Stat.mean p.2)%R); [done|].
    eapply Forall_impl; [exact Hnz|]. intros p Hp v. simpl. by field.
Qed.

Lemma normalize_denormalize_inverse_witness :
  ∃ n d : tensor2,
    n = [[(1 - 3) / 2; (2 - 3) / 2; (3 - 3) / 2; (4 - 3) / 2]%R]
    ∧ d = [[2 * 1 + 3; 2 * 2 + 3; 2 * 3 + 3; 2 * 4 + 3]%R]
    ∧ normalize tiny_ds [[1; 2; 3; 4]%R] = Ok n
    ∧ denormalize tiny_ds n = Ok [[1; 2; 3; 4]%R]
    ∧ denormalize tiny_ds [[1; 2; 3; 4]%R] = Ok d
    ∧ normalize tiny_ds d = Ok [[1; 2; 3; 4]%R].
Proof.
  apply (normalize_denormalize_inverse tiny_ds tiny_statistics
           [[1; 2; 3; 4]%R] 4).
  - reflexivity.
  - reflexivity.
  - repeat constructor. simpl. lra.
  - reflexivity.
  - repeat constructor.
Defined.

(** ** C10: the gauge list and the edge index *)

Lemma StronglySorted_strict (l : list Z) :
  StronglySorted Z.le l → NoDup l → StronglySorted Z.lt l.
Proof.
  induction 1 as [|a l Hl IH Ha]; intros Hnd; constructor.
  - apply IH. by apply NoDup_cons in Hnd as [_ ?].
  - apply NoDup_cons in Hnd as [Hnotin _].
    rewrite Forall_forall in Ha |- *. intros b Hb.
    specialize (Ha b Hb). assert (a ≠ b) by (intros ->; done). lia.
Qed.

Lemma elem_of_gauge_list (adjacency : list adjacency_row) (g : Z) :
  g ∈ gauge_list adjacency
  ↔ ∃ r : adjacency_row, r ∈ adjacency ∧ (ID r = g ∨ NEXTDOWNID r = g).
Proof.
  unfold gauge_list. rewrite merge_sort_Permutation, elem_of_elements.
  rewrite elem_of_union, !elem_of_list_to_set.
  change (map ?f ?l) with (f <$> l). rewrite !list_elem_of_fmap.
  split.
  - intros [(r & -> & Hr)|(r & -> & Hr)]; exists r; auto.
  - intros (r & Hr & [<-|<-]); [left|right]; exists r; auto.
Qed.

Lemma gauge_list_sorted (adjacency : list adjacency_row) :
  StronglySorted Z.lt (gauge_list adjacency).
Proof.
  apply StronglySorted_strict.
  - unfold gauge_list. apply (StronglySorted_merge_sort Z.le).
  - unfold gauge_list. rewrite merge_sort_Permutation. apply NoDup_elements.
Qed.

Lemma gauge_list_NoDup (adjacency : list adjacency_row) :
  NoDup (gauge_list adjacency).
Proof.
  unfold gauge_list. rewrite merge_sort_Permutation. apply NoDup_elements.
Qed.

(** The dictionary built from [enumerate] keeps the entries of keys that
    are not enumerated ... *)
Lemma rev_index_fold_notin (gs : list Z) :
  ∀ (d : gmap Z nat) (i0 : nat) (g : Z),
    g ∉ gs →
    foldl (λ d (p : nat * Z), <[p.2 := p.1]> d) d (zip (seq i0 (length gs)) gs) !! g
    = d !! g.
Proof.
  induction gs as [|a gs IH]; intros d i0 g Hg; simpl; [done|].
  apply not_elem_of_cons in Hg as [Hne Hg].
  rewrite IH by done. by rewrite lookup_insert_ne.
Qed.

(** ... and maps each enumerated key to its position. *)
Lemma rev_index_fold_lookup (gs : list Z) :
  ∀ (d : gmap Z nat) (i0 k : nat) (g : Z),
    NoDup gs → gs !! k = Some g →
    foldl (λ d (p : nat * Z), <[p.2 := p.1]> d) d (zip (seq i0 (length gs)) gs) !! g
    = Some (i0 + k)%nat.
Proof.
  induction gs as [|a gs IH]; intros d i0 k g Hnd Hk; [done|].
  apply NoDup_cons in Hnd as [Ha Hnd]. simpl. destruct k as [|k]; simpl in Hk.
  - injection Hk as ->. rewrite rev_index_fold_notin by done.
    rewrite lookup_insert_eq. f_equal. lia.
  - rewrite (IH _ _ k g) by done. f_equal. lia.
Qed.

Lemma rev_index_lookup (gs : list Z) (g : Z) (i : nat) :
  NoDup gs → (rev_index gs !! g = Some i ↔ gs !! i = Some g).
Proof.
  intros Hnd. unfold rev_index, rev_index_from. split.
  - intros Hi. destruct (decide (g ∈ gs)) as [Hin|Hnotin].
    + apply list_elem_of_lookup in Hin as [k Hk].
      rewrite (rev_index_fold_lookup gs ∅ 0 k g Hnd Hk) in Hi.
      injection Hi as <-. exact Hk.
    + rewrite rev_index_fold_notin in Hi by done. done.
  - intros Hi. by rewrite (rev_index_fold_lookup gs ∅ 0 i g Hnd Hi).
Qed.

(** The lookups of [applymap] cannot miss a key. *)
Lemma edge_cols_total (adjacency : list adjacency_row) :
  ∃ cols, edge_cols (rev_index (gauge_list adjacency)) adjacency = Ok cols.
Proof.
  unfold edge_cols.
  assert (∀ r : adjacency_row, r ∈ adjacency →
            ∃ i j, rev_index (gauge_list adjacency) !! ID r = Some i
                   ∧ rev_index (gauge_list adjacency) !! NEXTDOWNID r = Some j)
    as Hall.
  { intros r Hr.
    assert (ID r ∈ gauge_list adjacency) as Hi
      by (apply elem_of_gauge_list; eauto).
    assert (NEXTDOWNID r ∈ gauge_list adjacency) as Hj
      by (apply elem_of_gauge_list; eauto).
    apply list_elem_of_lookup in Hi as [i Hi].
    apply list_elem_of_lookup in Hj as [j Hj].
    exists i, j. split; apply rev_index_lookup; auto using gauge_list_NoDup. }
  revert Hall. generalize (rev_index (gauge_list adjacency)) as d.
  intros d. induction adjacency as [|r rest IH]; intros Hall; simpl; [eauto|].
  destruct (Hall r) as (i & j & Hi & Hj); [left|].
  destruct IH as [cols Hcols].
  { intros r' Hr'. apply Hall. by right. }
  unfold dict_get at 1 2. rewrite Hi, Hj. simpl.
  change (mapM_res _ rest) with (mapM_res
    (λ r : adjacency_row,
       i <- dict_get d (ID r) ;; j <- dict_get d (NEXTDOWNID r) ;;
       Ok (Z.of_nat i, Z.of_nat j)) rest).
  rewrite Hcols. simpl. eauto.
Qed.

Lemma edge_cols_positions (gs : list Z) (adjacency : list adjacency_row) cols :
  NoDup gs →
  edge_cols (rev_index gs) adjacency = Ok cols →
  Forall2 (λ (r : adjacency_row) (c : Z * Z),
             ∃ i j : nat, c = (Z.of_nat i, Z.of_nat j)
               ∧ gs !! i = Some (ID r) ∧ gs !! j = Some (NEXTDOWNID r))
    adjacency cols.
Proof.
  intros Hnd H. apply mapM_res_Ok in H.
  eapply Forall2_impl; [exact H|]. intros r c Hc. simpl in Hc.
  unfold dict_get in Hc.
  destruct (rev_index gs !! ID r) as [i|] eqn:Hi; [|discriminate].
  destruct (rev_index gs !! NEXTDOWNID r) as [j|] eqn:Hj; [|discriminate].
  simpl in Hc. injection Hc as <-. exists i, j.
  split; [done|]. split; by apply rev_index_lookup.
Qed.

(** C10. After construction the gauge list is strictly ascending (hence free
    of duplicates), its members are exactly the IDs that occur in the [ID]
    or the [NEXTDOWNID] column of the persisted adjacency table, and the
    edge index has two rows whose entries are positions into the gauge
    list: entry [k] of the first (second) row is the position of the [ID]
    ([NEXTDOWNID]) of row [k] of the table. *)
Theorem gauges_sorted_edge_index_valid read adjacency statistics ys w s l norm ds :
  __init__ read adjacency statistics ys w s l norm = Ok ds →
  StronglySorted Z.lt (gauges ds)
  ∧ NoDup (gauges ds)
  ∧ (∀ g : Z,
        g ∈ gauges ds
        ↔ ∃ r : adjacency_row, r ∈ adjacency ∧ (ID r = g ∨ NEXTDOWNID r = g))
  ∧ (∀ (row : list Z) (e : Z),
        row ∈ edge_index ds → e ∈ row →
        0 ≤ e < Z.of_nat (length (gauges ds)))
  ∧ (∃ srcs dsts : list Z,
        edge_index ds = [srcs; dsts]
        ∧ ∀ (k : nat) (r : adjacency_row),
            adjacency !! k = Some r →
            ∃ i j : nat,
              srcs !! k = Some (Z.of_nat i) ∧ dsts !! k = Some (Z.of_nat j)
              ∧ gauges ds !! i = Some (ID r)
              ∧ gauges ds !! j = Some (NEXTDOWNID r)).
Proof.
  intros Hinit.
  apply init_Ok in Hinit
    as (cols & dfs & _ & Hcols & _ & _ & _ & _ & _ & _ & Hg & He).
  rewrite Hg, He.
  apply edge_cols_positions in Hcols; [|apply gauge_list_NoDup].
  split; [apply gauge_list_sorted|].
  split; [apply gauge_list_NoDup|].
  split; [apply elem_of_gauge_list|].
  split.
  - intros row e Hrow He'. unfold transpose2 in Hrow.
    assert (∃ c, c ∈ cols ∧ (e = c.1 ∨ e = c.2)) as (c & Hc & Hec).
    { apply elem_of_cons in Hrow as [->|Hrow].
      - apply list_elem_of_fmap in He' as (c & -> & Hc). eauto.
      - apply list_elem_of_singleton in Hrow as ->.
        apply list_elem_of_fmap in He' as (c & -> & Hc). eauto. }
    apply list_elem_of_lookup in Hc as [k Hk].
    destruct (Forall2_lookup_r _ _ _ _ _ Hcols Hk)
      as (r & _ & i & j & -> & Hi & Hj).
    apply lookup_lt_Some in Hi, Hj. simpl in Hec. destruct Hec; lia.
  - exists (cols.*1), (cols.*2). split; [reflexivity|].
    intros k r Hk.
    destruct (Forall2_lookup_l _ _ _ _ _ Hcols Hk)
      as (c & Hc & i & j & -> & Hi & Hj).
    exists i, j. rewrite !list_lookup_fmap, Hc. auto.
Qed.

Lemma gauges_sorted_edge_index_valid_witness :
  ∃ ds, sample_dataset = Ok ds
    ∧ gauges ds = [1; 399]
    ∧ edge_index ds = [[0]; [1]]
    ∧ StronglySorted Z.lt (gauges ds)
    ∧ ∀ (row : list Z) (e : Z),
        row ∈ edge_index ds → e ∈ row → 0 ≤ e < Z.of_nat (length (gauges ds)).
Proof.
  exists sample_ds. split; [vm_compute; reflexivity|].
  split; [reflexivity|]. split; [reflexivity|].
  destruct (gauges_sorted_edge_index_valid sample_hours sample_adjacency two_statistics
              [2000; 2001] 24 1 1 false sample_ds
              ltac:(vm_compute; reflexivity)) as (Hs & _ & _ & He & _).
  split; [exact Hs | exact He].
Defined.

(** ** C5: upstream traversal *)

Lemma mapM_res_all {A B} (f : A → res B) (l : list A) :
  (∀ a, a ∈ l → ∃ b, f a = Ok b) → ∃ bs, mapM_res f l = Ok bs.
Proof.
  induction l as [|a l IH]; intros H; simpl; [eauto|].
  destruct (H a) as [b Hb]; [left|]. rewrite Hb. simpl.
  destruct IH as [bs Hbs]; [intros a' Ha'; apply H; by right|].
  rewrite Hbs. simpl. eauto.
Qed.

Lemma elem_of_predecessors (stream_dist : list edge) (id p : Z) :
  p ∈ predecessors stream_dist id ↔ flows stream_dist p id.
Proof.
  unfold predecessors, flows.
  rewrite elem_of_list_to_set, list_elem_of_fmap. split.
  - intros (r & -> & Hr). apply list_elem_of_filter in Hr as [Hn Hr]. eauto.
  - intros (r & Hr & <- & Hn). exists r. split; [done|].
    apply list_elem_of_filter. auto.
Qed.

Lemma flows_connected (stream_dist : list edge) (a b : Z) :
  flows stream_dist a b →
  a ∈ connected_gauges stream_dist ∧ b ∈ connected_gauges stream_dist.
Proof.
  intros (r & Hr & <- & <-). unfold connected_gauges.
  rewrite !elem_of_union, !elem_of_list_to_set.
  split; [left|right]; by apply list_elem_of_fmap_2.
Qed.

Lemma flows_ID (stream_dist : list edge) (a b : Z) :
  flows stream_dist a b → a ∈ ID <$> stream_dist.
Proof. intros (r & Hr & <- & _). by apply list_elem_of_fmap_2. Qed.

Lemma rtc_flows_source (stream_dist : list edge) (a b : Z) :
  rtc (flows stream_dist) a b → a = b ∨ a ∈ connected_gauges stream_dist.
Proof.
  intros H. destruct H as [|a a' b Hstep _]; [by left|right].
  by apply flows_connected in Hstep as [? _].
Qed.

(** A table whose rows all descend along an integer rank is acyclic. *)
Lemma ranked_acyclic (rank : Z → Z) (stream_dist : list edge) :
  Forall (λ r, rank (NEXTDOWNID r) < rank (ID r)) stream_dist →
  acyclic stream_dist.
Proof.
  intros Hrank.
  assert (∀ a b, tc (flows stream_dist) a b → rank b < rank a) as Hdesc.
  { induction 1 as [a b (r & Hr & <- & <-)|a b c (r & Hr & <- & <-) _ IH].
    - by eapply Forall_forall in Hrank.
    - eapply Forall_forall in Hrank; [|exact Hr]. simpl in Hrank. lia. }
  intros g Hg. apply Hdesc in Hg. lia.
Qed.

Section Upstream.

Variable walk : gset Z → list Z.
Hypothesis walk_enumerates : ∀ s, walk s ≡ₚ elements s.

Lemma elem_of_walk (s : gset Z) (g : Z) : g ∈ walk s ↔ g ∈ s.
Proof. by rewrite walk_enumerates, elem_of_elements. Qed.

Variable stream_dist : list edge.

(** Whatever the traversal returns is the set of gauges from which the
    start is reachable. *)
Lemma collect_upstream_sound (depth : nat) :
  ∀ (id : Z) (ups : gset Z),
    collect_upstream walk depth stream_dist id = Ok ups →
    ∀ g, g ∈ ups ↔ rtc (flows stream_dist) g id.
Proof.
  induction depth as [|depth IH]; intros id ups H g; [discriminate|].
  simpl in H.
  destruct (decide (size (predecessors stream_dist id) = 0%nat)) as [Hnone|_].
  - injection H as <-. rewrite elem_of_singleton. split.
    + intros ->. constructor.
    + intros Hg. apply rtc_inv_r in Hg as [->|(p & _ & Hp)]; [done|].
      apply elem_of_predecessors in Hp.
      apply size_empty_iff in Hnone. apply Hnone in Hp.
      by apply not_elem_of_empty in Hp.
  - apply bind_Ok in H as (sets & Hsets & H). injection H as <-.
    apply mapM_res_Ok in Hsets.
    rewrite elem_of_union, elem_of_singleton, elem_of_union_list. split.
    + intros [->|(U & HU & Hg)]; [constructor|].
      apply list_elem_of_lookup in HU as [k Hk].
      destruct (Forall2_lookup_r _ _ _ _ _ Hsets Hk) as (p & Hp & Hcall).
      apply list_elem_of_lookup_2, elem_of_walk, elem_of_predecessors in Hp.
      eapply rtc_r; [|exact Hp]. by apply (IH p U).
    + intros Hg. apply rtc_inv_r in Hg as [->|(p & Hgp & Hp)]; [by left|].
      right. apply elem_of_predecessors, elem_of_walk in Hp.
      apply list_elem_of_lookup in Hp as [k Hk].
      destruct (Forall2_lookup_l _ _ _ _ _ Hsets Hk) as (U & HU & Hcall).
      exists U. split; [by eapply list_elem_of_lookup_2|]. by apply (IH p U).
Qed.

(** On an acyclic table the gauges on the recursion stack are pairwise
    distinct, and all but the outlet are sources of rows: the stack is
    never deeper than the number of rows plus one. *)
Lemma collect_upstream_depth (outlet : Z) :
  acyclic stream_dist →
  ∀ (depth : nat) (id : Z) (stack : list Z),
    NoDup (id :: stack) →
    (∀ g, g ∈ id :: stack → g ∈ outlet :: (ID <$> stream_dist)) →
    (∀ g, g ∈ stack → rtc (flows stream_dist) id g) →
    (length stream_dist + 1 < depth + length (id :: stack))%nat →
    ∃ ups, collect_upstream walk depth stream_dist id = Ok ups.
Proof.
  intros Hacyc. induction depth as [|depth IH];
    intros id stack Hnd Hin Hreach Hlen.
  - exfalso. apply NoDup_submseteq with (k := outlet :: (ID <$> stream_dist))
      in Hnd; [|exact Hin].
    apply submseteq_length in Hnd. simpl in Hnd, Hlen.
    rewrite length_fmap in Hnd. lia.
  - simpl.
    destruct (decide (size (predecessors stream_dist id) = 0%nat)); [eauto|].
    destruct (mapM_res_all (collect_upstream walk depth stream_dist)
                (walk (predecessors stream_dist id))) as [sets Hsets].
    + intros p Hp. apply elem_of_walk, elem_of_predecessors in Hp.
      apply (IH p (id :: stack)).
      * apply NoDup_cons. split; [|exact Hnd].
        intros Hp'. apply (Hacyc p).
        apply elem_of_cons in Hp' as [->|Hp'].
        -- by apply tc_once.
        -- eapply tc_rtc_r; [by apply tc_once|]. by apply Hreach.
      * intros g Hg. apply elem_of_cons in Hg as [->|Hg]; [|by apply Hin].
        right. by eapply flows_ID.
      * intros g Hg. apply elem_of_cons in Hg as [->|Hg].
        -- by apply rtc_once.
        -- eapply rtc_l; [exact Hp|]. by apply Hreach.
      * simpl in *. lia.
    + rewrite Hsets. simpl. eauto.
Qed.

End Upstream.

(** C5 (as amended). On every acyclic stream table, [collect_upstream]
    returns as soon as the available recursion depth exceeds the number of
    rows, and its result is exactly the set of gauges from which the outlet
    is reachable along NEXTDOWNID edges: the outlet alone when it has no
    predecessor, and otherwise the outlet together with everything upstream
    of its immediate predecessors. When the outlet occurs in the table, the
    result is a subset of the connected set. *)
Theorem collect_upstream_ancestors (walk : gset Z → list Z)
    (stream_dist : list edge) (outlet : Z) (depth : nat) :
  (∀ s, walk s ≡ₚ elements s) →
  acyclic stream_dist →
  (length stream_dist < depth)%nat →
  ∃ ups : gset Z,
    collect_upstream walk depth stream_dist outlet = Ok ups
    ∧ (∀ g, g ∈ ups ↔ rtc (flows stream_dist) g outlet)
    ∧ (predecessors stream_dist outlet = ∅ → ups = {[ outlet ]})
    ∧ (∀ g, g ∈ ups
            ↔ g = outlet
              ∨ ∃ p, p ∈ predecessors stream_dist outlet
                     ∧ rtc (flows stream_dist) g p)
    ∧ (outlet ∈ connected_gauges stream_dist →
       ups ⊆ connected_gauges stream_dist).
Proof.
  intros Hwalk Hacyc Hdepth.
  destruct (collect_upstream_depth walk Hwalk stream_dist outlet Hacyc
              depth outlet []) as [ups Hups].
  { apply NoDup_singleton. }
  { intros g Hg. apply list_elem_of_singleton in Hg as ->. left. }
  { intros g Hg. by apply elem_of_nil in Hg. }
  { simpl. lia. }
  pose proof (collect_upstream_sound walk Hwalk stream_dist depth outlet ups Hups)
    as Hsound.
  assert (∀ g, g ∈ ups
             ↔ g = outlet
               ∨ ∃ p, p ∈ predecessors stream_dist outlet
                      ∧ rtc (flows stream_dist) g p) as Hunfold.
  { intros g. rewrite Hsound. split.
    - intros Hg. apply rtc_inv_r in Hg as [->|(p & Hgp & Hp)]; [by left|].
      right. exists p. by rewrite elem_of_predecessors.
    - intros [->|(p & Hp & Hgp)]; [constructor|].
      eapply rtc_r; [exact Hgp|]. by apply elem_of_predecessors. }
  exists ups. split; [exact Hups|]. split; [exact Hsound|].
  split; [|split; [exact Hunfold|]].
  - intros Hnone. apply set_eq. intros g.
    rewrite Hunfold, elem_of_singleton, Hnone. split; [|by left].
    intros [->|(p & Hp & _)]; [done|]. by apply not_elem_of_empty in Hp.
  - intros Hout g Hg. apply Hsound, rtc_flows_source in Hg as [->|Hg]; done.
Qed.

Lemma collect_upstream_ancestors_witness :
  ∃ ups : gset Z,
    collect_upstream elements 5 sample_stream 399 = Ok ups
    ∧ ups = {[ 1; 2; 3; 399 ]}
    ∧ ups ⊆ connected_gauges sample_stream.
Proof.
  destruct (collect_upstream_ancestors elements sample_stream 399 5)
    as (ups & Hups & _ & _ & _ & Hsub).
  - intros s. reflexivity.
  - apply (ranked_acyclic sample_rank). repeat constructor.
  - simpl. lia.
  - exists ups. split; [exact Hups|]. split.
    + assert (Ok ups = collect_upstream elements 5 sample_stream 399) as Heq
        by (symmetry; exact Hups).
      vm_compute in Heq. injection Heq as ->. vm_compute. reflexivity.
    + apply Hsub. vm_compute. reflexivity.
Defined.

(** C5 fails as stated on a table in which the outlet does not occur: the
    traversal returns the outlet alone, which is not in the connected set. *)
Lemma collect_upstream_outlet_absent :
  acyclic []
  ∧ collect_upstream elements 1 [] 399 = Ok {[ 399 ]}
  ∧ ¬ ({[ 399 ]} : gset Z) ⊆ connected_gauges [].
Proof.
  split; [|split].
  - apply (ranked_acyclic (λ g, g)). constructor.
  - reflexivity.
  - intros H. specialize (H 399 ltac:(by apply elem_of_singleton)).
    unfold connected_gauges in H. simpl in H.
    rewrite elem_of_union in H. destruct H as [H|H];
      by apply not_elem_of_empty in H.
Qed.

(** ** Removal of excluded gauges *)

Lemma filter_empty_iff {A} (P : A → Prop) `{!∀ a, Decision (P a)} (l : list A) :
  filter P l = [] ↔ ∀ a, a ∈ l → ¬ P a.
Proof.
  split.
  - intros Hnil a Ha HP. by apply (filter_nil_not_elem_of P l a).
  - intros Hnone. destruct (filter P l) as [|a l'] eqn:Hf; [done|].
    assert (a ∈ filter P l) as Ha by (rewrite Hf; left).
    apply list_elem_of_filter in Ha as [HP Ha]. by apply Hnone in Ha.
Qed.

Lemma absent_filters (stream_dist : list edge) (g : Z) :
  absent stream_dist g
  ↔ filter (λ r, ID r = g) stream_dist = []
    ∧ filter (λ r, NEXTDOWNID r = g) stream_dist = [].
Proof.
  unfold absent. rewrite !filter_empty_iff. split.
  - intros H. split; intros r Hr; by apply H.
  - intros [H1 H2] r Hr. split; [by apply H1 | by apply H2].
Qed.

Lemma elem_of_cross_merge (incoming outgoing : list edge) (r : edge) :
  r ∈ cross_merge incoming outgoing
  ↔ ∃ inc out, inc ∈ incoming ∧ out ∈ outgoing ∧ r = bypass_edge inc out.
Proof.
  unfold cross_merge. rewrite list_elem_of_bind. split.
  - intros (inc & Hr & Hinc). apply list_elem_of_fmap in Hr as (out & -> & Hout).
    eauto.
  - intros (inc & out & Hinc & Hout & ->). exists inc. split; [|done].
    by apply list_elem_of_fmap_2.
Qed.

(** The rows after one removal: rows that do not touch the gauge are kept,
    and each new row merges an incoming with an outgoing row. *)
Lemma remove_gauge_rows (stream_dist : list edge) (g : Z) (after : list edge) :
  remove_gauge stream_dist g = Ok after →
  (∀ r, r ∈ stream_dist → ¬ (ID r = g ∧ NEXTDOWNID r = g))
  ∧ ∀ r, r ∈ after
      ↔ (r ∈ stream_dist ∧ ID r ≠ g ∧ NEXTDOWNID r ≠ g)
        ∨ ∃ inc out, inc ∈ stream_dist ∧ NEXTDOWNID inc = g
                     ∧ out ∈ stream_dist ∧ ID out = g
                     ∧ r = bypass_edge inc out.
Proof.
  unfold remove_gauge. case_decide as Hloop; [discriminate|].
  intros [= <-]. split.
  - intros r Hr [Hid Hnext]. apply Hloop, Exists_exists. exists r.
    split; [|done]. by apply list_elem_of_filter.
  - intros r. rewrite elem_of_app, !list_elem_of_filter, elem_of_cross_merge.
    split.
    + intros [(? & ? & ?)|(inc & out & Hinc & Hout & ->)]; [left; done|right].
      apply list_elem_of_filter in Hinc as [? ?].
      apply list_elem_of_filter in Hout as [? ?].
      exists inc, out. done.
    + intros [(? & ? & ?)|(inc & out & ? & ? & ? & ? & ->)]; [left; done|right].
      exists inc, out. rewrite !list_elem_of_filter. done.
Qed.

Lemma remove_gauge_clears (stream_dist : list edge) (g : Z) (after : list edge) :
  remove_gauge stream_dist g = Ok after → absent after g.
Proof.
  intros H. apply remove_gauge_rows in H as [Hloop Hrows].
  intros r Hr. apply Hrows in Hr
    as [(_ & ? & ?)|(inc & out & Hinc & Hn & Hout & Hi & ->)]; [done|].
  simpl. split.
  - intros Hid. by apply (Hloop inc).
  - intros Hnext. by apply (Hloop out).
Qed.

Lemma remove_gauge_keeps_absent (stream_dist : list edge) (g h : Z)
    (after : list edge) :
  remove_gauge stream_dist g = Ok after →
  absent stream_dist h → absent after h.
Proof.
  intros H Habs. apply remove_gauge_rows in H as [_ Hrows].
  intros r Hr. apply Hrows in Hr
    as [(Hr & _)|(inc & out & Hinc & _ & Hout & _ & ->)].
  - by apply Habs.
  - simpl. split; [by apply (Habs inc) | by apply (Habs out)].
Qed.

Lemma removal_loop_keeps_absent (order : list Z) :
  ∀ (stream_dist final : list edge) (h : Z),
    removal_loop order stream_dist = Ok final →
    absent stream_dist h → absent final h.
Proof.
  induction order as [|g order IH]; intros sd final h H Habs; simpl in H.
  - by injection H as <-.
  - apply bind_Ok in H as (after & Hstep & H).
    eapply IH; [exact H|]. by eapply remove_gauge_keeps_absent.
Qed.

Lemma removal_loop_clears (order : list Z) :
  ∀ (stream_dist final : list edge) (g : Z),
    removal_loop order stream_dist = Ok final →
    g ∈ order → absent final g.
Proof.
  induction order as [|g' order IH]; intros sd final g H Hg; simpl in H.
  - by apply elem_of_nil in Hg.
  - apply bind_Ok in H as (after & Hstep & H).
    apply elem_of_cons in Hg as [->|Hg].
    + eapply removal_loop_keeps_absent; [exact H|].
      by eapply remove_gauge_clears.
    + by eapply IH.
Qed.

(** On an acyclic table no removal can meet a row that is both incoming and
    outgoing, because every row of the working table shortcuts a path of
    the original table. *)
Lemma remove_gauge_shortcuts (original stream_dist : list edge) (g : Z) :
  acyclic original →
  shortcuts original stream_dist →
  ∃ after, remove_gauge stream_dist g = Ok after ∧ shortcuts original after.
Proof.
  intros Hacyc Hsc.
  destruct (remove_gauge stream_dist g) as [after|e] eqn:Hrm.
  - exists after. split; [done|].
    apply remove_gauge_rows in Hrm as [_ Hrows].
    intros r Hr. apply Hrows in Hr
      as [(Hr & _)|(inc & out & Hinc & Hn & Hout & Hi & ->)].
    + by apply Hsc.
    + simpl. eapply tc_transitive; [by apply Hsc|].
      rewrite Hn, <- Hi. by apply Hsc.
  - exfalso. unfold remove_gauge in Hrm.
    case_decide as Hloop; [|discriminate].
    apply Exists_exists in Hloop as (r & Hr & Hn).
    apply list_elem_of_filter in Hr as [Hi Hr].
    apply (Hacyc g). specialize (Hsc r Hr). by rewrite Hi, Hn in Hsc.
Qed.

Lemma removal_loop_total (original : list edge) (order : list Z) :
  acyclic original →
  ∀ stream_dist,
    shortcuts original stream_dist →
    ∃ final, removal_loop order stream_dist = Ok final
             ∧ shortcuts original final.
Proof.
  intros Hacyc. induction order as [|g order IH]; intros sd Hsc; simpl.
  - eauto.
  - destruct (remove_gauge_shortcuts original sd g Hacyc Hsc)
      as (after & -> & Hafter). simpl. by apply IH.
Qed.

Lemma shortcuts_refl (stream_dist : list edge) : shortcuts stream_dist stream_dist.
Proof. intros r Hr. apply tc_once. by exists r. Qed.

(** ** The filtering loop and the stages of [process] *)

Lemma gauge_check_Some (ts : list hourly) (s : Stat.row) :
  gauge_check ts = Ok (Some s) →
  Forall (λ h, (0 <= qobs h)%R) ts
  ∧ Z.of_nat (length (reference_period ts)) = (18 * 365 + 5) * 24
  ∧ stamp <$> head (reference_period ts) = Some (2000, 1, 1, 0, 0)
  ∧ stamp <$> last (reference_period ts) = Some (2017, 12, 31, 23, 0)
  ∧ s = Series.describe (qobs <$> ts).
Proof.
  unfold gauge_check.
  destruct (forallb _ ts) eqn:Hall; [|discriminate].
  case_decide as Hlen; [|discriminate].
  unfold py_assert. case_bool_decide as Hstamp; simpl; [|discriminate].
  intros [= <-]. destruct Hstamp as [Hfirst Hlast].
  repeat split; try done.
  apply Forall_forall. intros h Hh.
  rewrite forallb_forall in Hall. apply list_elem_of_In, Hall in Hh.
  by apply bool_decide_eq_true_1 in Hh.
Qed.

Lemma elem_of_stat_set (statistics : list (Z * Stat.row)) (g k : Z)
    (s s' : Stat.row) :
  (k, s') ∈ stat_set statistics g s →
  (k, s') ∈ statistics ∨ (k = g ∧ s' = s).
Proof.
  induction statistics as [|[k0 s0] rest IH]; simpl.
  - intros H. apply list_elem_of_singleton in H as [= -> ->]. by right.
  - case_decide as Hk; intros H; apply elem_of_cons in H as [[= -> ->]|H].
    + by right.
    + left. by right.
    + left. left.
    + destruct (IH H) as [?|?]; [left; by right | by right].
Qed.

Lemma stat_set_keys (statistics : list (Z * Stat.row)) (g k : Z) (s : Stat.row) :
  k ∈ (stat_set statistics g s).*1 ↔ k ∈ statistics.*1 ∨ k = g.
Proof.
  induction statistics as [|[k0 s0] rest IH]; simpl.
  - rewrite list_elem_of_singleton. split; [by right|].
    intros [H|H]; [by apply elem_of_nil in H | done].
  - case_decide as Hk; simpl; rewrite !elem_of_cons; [|rewrite IH].
    + subst. tauto.
    + tauto.
Qed.

Section Filtering.

Variable read_hourly : Z → res (list hourly).

Local Abbreviation passes := (passes read_hourly).

Lemma filter_loop_spec (order : list Z) :
  ∀ (feasible : gset Z) (statistics : list (Z * Stat.row))
    (feasible' : gset Z) (statistics' : list (Z * Stat.row)),
    filter_loop read_hourly order feasible statistics
    = Ok (feasible', statistics') →
    (∀ g, g ∈ feasible' ↔ g ∈ feasible ∨ (g ∈ order ∧ ∃ s, passes g s))
    ∧ (∀ g s, (g, s) ∈ statistics' →
              (g, s) ∈ statistics ∨ (g ∈ order ∧ passes g s))
    ∧ (∀ g, g ∈ statistics'.*1
            ↔ g ∈ statistics.*1 ∨ (g ∈ order ∧ ∃ s, passes g s)).
Proof.
  induction order as [|g0 order IH]; intros F S F' S' H; simpl in H.
  - injection H as <- <-. repeat split; try tauto.
    + intros [?|[Hg _]]; [done|]. by apply elem_of_nil in Hg.
    + intros [?|[Hg _]]; [done|]. by apply elem_of_nil in Hg.
  - apply bind_Ok in H as (ts & Hread & H).
    apply bind_Ok in H as (verdict & Hcheck & H).
    destruct verdict as [s0|]; apply IH in H as (HF & HS & HK).
    + split; [|split].
      * intros g. rewrite HF, elem_of_union, elem_of_singleton, elem_of_cons.
        split; [|tauto].
        intros [[ ->|?]|[? ?]]; try tauto.
        right. split; [by left|]. exists s0, ts. done.
      * intros g s Hgs. apply HS in Hgs as [Hgs|[? ?]].
        -- apply elem_of_stat_set in Hgs as [?|[-> ->]]; [by left|].
           right. split; [left|]. exists ts. done.
        -- right. split; [by right|done].
      * intros g. rewrite HK, stat_set_keys, elem_of_cons.
        split; [|tauto].
        intros [[?| ->]|[? ?]]; try tauto.
        right. split; [by left|]. exists s0, ts. done.
    + split; [|split].
      * intros g. rewrite HF, elem_of_cons. split; [tauto|].
        intros [?|[[ ->|?] Hp]]; try tauto.
        destruct Hp as (s & ts' & Hread' & Hcheck'). congruence.
      * intros g s Hgs. apply HS in Hgs as [?|[? ?]]; [by left|].
        right. split; [by right|done].
      * intros g. rewrite HK, elem_of_cons. split; [tauto|].
        intros [?|[[ ->|?] Hp]]; try tauto.
        destruct Hp as (s & ts' & Hread' & Hcheck'). congruence.
Qed.

Lemma filter_loop_total (order : list Z) :
  (∀ g, g ∈ order →
        ∃ ts verdict, read_hourly g = Ok ts ∧ gauge_check ts = Ok verdict) →
  ∀ (feasible : gset Z) (statistics : list (Z * Stat.row)),
    ∃ filtered, filter_loop read_hourly order feasible statistics = Ok filtered.
Proof.
  induction order as [|g0 order IH]; intros Hall F S; simpl; [eauto|].
  destruct (Hall g0) as (ts & verdict & -> & Hcheck); [left|]. simpl.
  rewrite Hcheck. simpl.
  destruct verdict; apply IH; intros g Hg; apply Hall; by right.
Qed.

End Filtering.

(** The stages of [process], read off a successful run ... *)
Lemma process_Ok walk read_hourly depth raw adjacency statistics :
  process walk read_hourly depth raw = Ok (adjacency, statistics) →
  ∃ (danube feasible : gset Z) (final : list edge),
    collect_upstream walk depth (edge_of <$> raw) 399 = Ok danube
    ∧ danube ⊆ connected_gauges (edge_of <$> raw)
    ∧ filter_loop read_hourly (walk danube) ∅ [] = Ok (feasible, statistics)
    ∧ 399 ∈ feasible
    ∧ removal_loop (walk (connected_gauges (edge_of <$> raw) ∖ feasible))
        (edge_of <$> raw) = Ok final
    ∧ adjacency = merge_sort by_ID (with_slope <$> final).
Proof.
  unfold process. intros H.
  apply bind_Ok in H as (danube & Hup & H).
  apply bind_Ok in H as ([] & Hsub & H).
  apply bind_Ok in H as ([feasible stats] & Hloop & H).
  apply bind_Ok in H as ([] & Hout & H).
  apply bind_Ok in H as (final & Hrem & H).
  injection H as <- <-.
  unfold py_assert in Hsub, Hout.
  case_bool_decide as Hsub'; [|discriminate].
  case_bool_decide as Hout'; [|discriminate].
  exists danube, feasible, final. done.
Qed.

(** ... and a run assembled from its stages. *)
Lemma process_steps walk read_hourly depth raw
    (danube feasible : gset Z) statistics (final : list edge) :
  collect_upstream walk depth (edge_of <$> raw) 399 = Ok danube →
  danube ⊆ connected_gauges (edge_of <$> raw) →
  filter_loop read_hourly (walk danube) ∅ [] = Ok (feasible, statistics) →
  399 ∈ feasible →
  removal_loop (walk (connected_gauges (edge_of <$> raw) ∖ feasible))
    (edge_of <$> raw) = Ok final →
  process walk read_hourly depth raw
  = Ok (merge_sort by_ID (with_slope <$> final), statistics).
Proof.
  intros Hup Hsub Hloop Hout Hrem. unfold process.
  rewrite Hup. simpl. rewrite bool_decide_eq_true_2 by done. simpl.
  rewrite Hloop. simpl. rewrite bool_decide_eq_true_2 by done. simpl.
  rewrite Hrem. reflexivity.
Qed.

(** ** C2: the table after the removal loop *)

(** The persisted adjacency table of a run mentions no connected gauge that
    has no row in the statistics table. *)
Lemma process_clears_excluded walk read_hourly depth raw adjacency statistics :
  (∀ s, walk s ≡ₚ elements s) →
  process walk read_hourly depth raw = Ok (adjacency, statistics) →
  ∀ g : Z,
    g ∈ connected_gauges (edge_of <$> raw) → g ∉ statistics.*1 →
    filter (λ r : adjacency_row, ID r = g) adjacency = []
    ∧ filter (λ r : adjacency_row, NEXTDOWNID r = g) adjacency = [].
Proof.
  intros Hwalk H g Hconn Hnostat.
  apply process_Ok in H
    as (danube & feasible & final & _ & _ & Hloop & _ & Hrem & ->).
  apply filter_loop_spec in Hloop as (HF & _ & HK).
  assert (g ∉ feasible) as Hinf.
  { intros Hg. apply Hnostat, HK. apply HF in Hg as [Hg|Hg]; [|by right].
    by apply not_elem_of_empty in Hg. }
  assert (absent final g) as Habs.
  { apply (removal_loop_clears _ _ _ _ Hrem).
    apply elem_of_walk; [done|]. by apply elem_of_difference. }
  rewrite !filter_empty_iff. split; intros r Hr;
    rewrite merge_sort_Permutation in Hr;
    apply list_elem_of_fmap in Hr as (e & -> & He); by apply Habs.
Qed.

(** C2. Whatever the order in which the excluded gauges (connected but not
    feasible) are walked, once the removal loop has finished the table has
    no row with an excluded gauge as ID and no row with an excluded gauge as
    NEXTDOWNID; neighbouring excluded gauges are no exception. On an acyclic
    table the loop does finish. The same holds of the adjacency table that
    a run of [process] persists, where the feasible gauges are those with a
    row in the statistics table. *)
Theorem removal_loop_clears_excluded (stream_dist : list edge)
    (feasible_gauges : gset Z) (order : list Z) :
  order ≡ₚ elements (connected_gauges stream_dist ∖ feasible_gauges) →
  (∀ final : list edge,
      removal_loop order stream_dist = Ok final →
      ∀ g : Z,
        g ∈ connected_gauges stream_dist → g ∉ feasible_gauges →
        filter (λ r, ID r = g) final = []
        ∧ filter (λ r, NEXTDOWNID r = g) final = [])
  ∧ (acyclic stream_dist →
     ∃ final, removal_loop order stream_dist = Ok final)
  ∧ (∀ (walk : gset Z → list Z) (read_hourly : Z → res (list hourly))
       (depth : nat) (raw adjacency : list adjacency_row)
       (statistics : list (Z * Stat.row)),
        (∀ s, walk s ≡ₚ elements s) →
        edge_of <$> raw = stream_dist →
        process walk read_hourly depth raw = Ok (adjacency, statistics) →
        ∀ g : Z,
          g ∈ connected_gauges stream_dist → g ∉ statistics.*1 →
          filter (λ r : adjacency_row, ID r = g) adjacency = []
          ∧ filter (λ r : adjacency_row, NEXTDOWNID r = g) adjacency = []).
Proof.
  intros Horder. split; [|split].
  - intros final Hfinal g Hconn Hinf. apply absent_filters.
    apply (removal_loop_clears order stream_dist final g Hfinal).
    rewrite Horder, elem_of_elements, elem_of_difference. done.
  - intros Hacyc.
    destruct (removal_loop_total stream_dist order Hacyc stream_dist
                (shortcuts_refl stream_dist)) as (final & Hfinal & _).
    eauto.
  - intros walk read_hourly depth raw adjacency statistics Hwalk <- Hrun.
    by apply (process_clears_excluded walk read_hourly depth raw).
Qed.

Lemma removal_loop_clears_excluded_witness :
  [3; 2] ≡ₚ elements (connected_gauges sample_chain ∖ {[ 1; 399 ]})
  ∧ ∃ final : list edge,
      removal_loop [3; 2] sample_chain = Ok final
      ∧ (λ r, (ID r, NEXTDOWNID r)) <$> final = [(1, 399)]
      ∧ filter (λ r, ID r = 2) final = []
      ∧ filter (λ r, NEXTDOWNID r = 2) final = [].
Proof.
  assert ([3; 2] ≡ₚ elements (connected_gauges sample_chain ∖ {[ 1; 399 ]}))
    as Hperm by (vm_compute; first [reflexivity | apply perm_swap]).
  split; [exact Hperm|].
  destruct (removal_loop_clears_excluded sample_chain {[ 1; 399 ]} [3; 2] Hperm)
    as (Hclean & Htotal & _).
  destruct Htotal as [final Hfinal].
  { apply (ranked_acyclic (λ g, - g)). repeat constructor. }
  exists final. split; [exact Hfinal|]. split.
  - assert (Ok final = removal_loop [3; 2] sample_chain) as Heq
      by (symmetry; exact Hfinal).
    vm_compute in Heq. injection Heq as ->. reflexivity.
  - apply (Hclean final Hfinal 2); vm_compute; [reflexivity|].
    intros H; discriminate H.
Defined.

(** ** C8: summary statistics *)

(** C8 (as amended). The persisted statistics table has a row exactly for
    the gauges upstream of the outlet that pass both feasibility checks (no
    negative discharge, full hourly coverage of 2000-2017), and the summary
    statistics in the row of a gauge are computed over the whole raw series
    of that gauge, every row of its file. *)
Theorem statistics_of_feasible_gauges walk read_hourly depth raw adjacency
    statistics :
  (∀ s, walk s ≡ₚ elements s) →
  process walk read_hourly depth raw = Ok (adjacency, statistics) →
  (∀ (g : Z) (s : Stat.row),
      (g, s) ∈ statistics →
      ∃ ts : list hourly,
        read_hourly g = Ok ts
        ∧ Forall (λ h, (0 <= qobs h)%R) ts
        ∧ Z.of_nat (length (reference_period ts)) = (18 * 365 + 5) * 24
        ∧ s = Series.describe (qobs <$> ts))
  ∧ (∀ g : Z,
        g ∈ statistics.*1
        ↔ rtc (flows (edge_of <$> raw)) g 399
          ∧ ∃ s, passes read_hourly g s).
Proof.
  intros Hwalk H.
  apply process_Ok in H as (danube & feasible & final & Hup & _ & Hloop & _).
  apply filter_loop_spec in Hloop as (_ & Hrows & Hkeys). split.
  - intros g s Hgs. apply Hrows in Hgs as [Hgs|[_ (ts & Hread & Hcheck)]].
    { by apply elem_of_nil in Hgs. }
    apply gauge_check_Some in Hcheck as (? & ? & _ & _ & ?). eauto.
  - intros g. rewrite Hkeys, elem_of_walk by done.
    rewrite (collect_upstream_sound walk Hwalk _ _ _ _ Hup g).
    split; [|tauto]. intros [Hg|?]; [|done]. by apply elem_of_nil in Hg.
Qed.

(** [process] returns on an acyclic table that contains the outlet, given
    enough recursion depth, readable files whose boundary stamps pass the
    assertion, and a feasible outlet. *)
Lemma process_total walk read_hourly depth raw :
  (∀ s, walk s ≡ₚ elements s) →
  acyclic (edge_of <$> raw) →
  (length raw < depth)%nat →
  399 ∈ connected_gauges (edge_of <$> raw) →
  (∀ g, rtc (flows (edge_of <$> raw)) g 399 →
        ∃ ts verdict, read_hourly g = Ok ts ∧ gauge_check ts = Ok verdict) →
  (∃ s, passes read_hourly 399 s) →
  ∃ adjacency statistics,
    process walk read_hourly depth raw = Ok (adjacency, statistics).
Proof.
  intros Hwalk Hacyc Hdepth Hout Hfiles Hfeasible.
  destruct (collect_upstream_depth walk Hwalk (edge_of <$> raw) 399 Hacyc
              depth 399 []) as [danube Hup].
  { apply NoDup_singleton. }
  { intros g Hg. apply list_elem_of_singleton in Hg as ->. left. }
  { intros g Hg. by apply elem_of_nil in Hg. }
  { rewrite length_fmap. simpl. lia. }
  pose proof (collect_upstream_sound walk Hwalk _ _ _ _ Hup) as Hsound.
  destruct (filter_loop_total read_hourly (walk danube)) with (feasible := ∅ : gset Z)
    (statistics := [] : list (Z * Stat.row)) as [[feasible statistics] Hloop].
  { intros g Hg. apply Hfiles, Hsound. by apply elem_of_walk in Hg. }
  pose proof (filter_loop_spec read_hourly _ _ _ _ _ Hloop) as (HF & _ & _).
  destruct (removal_loop_total (edge_of <$> raw)
              (walk (connected_gauges (edge_of <$> raw) ∖ feasible)) Hacyc
              (edge_of <$> raw) (shortcuts_refl _)) as (final & Hrem & _).
  eexists _, _. eapply process_steps; try eassumption.
  - intros g Hg. apply Hsound, rtc_flows_source in Hg as [->|Hg]; done.
  - apply HF. right. split; [|done]. apply elem_of_walk; [done|].
    apply Hsound. constructor.
Qed.

(** *** The sample series *)

Lemma filter_all {A} (P : A → Prop) `{!∀ a, Decision (P a)} (l : list A) :
  Forall P l → filter P l = l.
Proof.
  induction 1 as [|a l Ha _ IH]; [done|].
  by rewrite filter_cons_True, IH.
Qed.

Lemma reference_period_long (n : nat) :
  reference_period (long_series n) = reference_series n.
Proof.
  unfold reference_period, long_series.
  rewrite filter_cons_False by (simpl; lia).
  apply filter_all. unfold reference_series.
  apply Forall_app. split; [|repeat constructor; simpl; lia].
  constructor; [simpl; lia|].
  apply Forall_replicate. simpl. lia.
Qed.

Lemma length_reference_series (n : nat) :
  length (reference_series n) = S (S n).
Proof.
  unfold reference_series. rewrite length_app. simpl.
  rewrite length_replicate. lia.
Qed.

Lemma long_series_nonnegative (n : nat) :
  forallb (λ h, bool_decide (0 <= qobs h)%R) (long_series n) = true.
Proof.
  apply forallb_forall. intros h Hh. apply bool_decide_eq_true_2.
  apply list_elem_of_In in Hh. unfold long_series, reference_series in Hh.
  rewrite elem_of_cons, elem_of_app, elem_of_cons, list_elem_of_singleton in Hh.
  destruct Hh as [->|[[->|Hh]| ->]]; simpl; try lra.
  apply elem_of_replicate in Hh as [-> _]. simpl. lra.
Qed.

Lemma gauge_check_long (n : nat) :
  Z.of_nat n = (18 * 365 + 5) * 24 - 2 →
  gauge_check (long_series n)
  = Ok (Some (Series.describe (qobs <$> long_series n))).
Proof.
  intros Hn. unfold gauge_check.
  rewrite long_series_nonnegative, reference_period_long, length_reference_series.
  rewrite decide_True by lia.
  assert (head (reference_series n) = Some first_hour) as -> by reflexivity.
  assert (last (reference_series n) = Some last_hour) as ->
    by apply last_snoc.
  reflexivity.
Qed.

Lemma gauge_check_long_series :
  gauge_check (long_series inner_hours)
  = Ok (Some (Series.describe (qobs <$> long_series inner_hours))).
Proof. apply gauge_check_long. unfold inner_hours. lia. Qed.

Lemma foldl_Rmax_bounded (a : R) (l : list R) :
  Forall (λ v, (v <= a)%R) l → foldl Rmax a l = a.
Proof.
  induction 1 as [|v l Hv _ IH]; simpl; [done|].
  by rewrite Rmax_left.
Qed.

Lemma qobs_reference_series (n : nat) :
  qobs <$> reference_series n = (0 :: replicate n 0 ++ [0])%R.
Proof.
  unfold reference_series.
  by rewrite fmap_app, fmap_cons, fmap_replicate.
Qed.

Lemma max_long_series (n : nat) :
  Series.max (qobs <$> long_series n) = 5%R.
Proof.
  unfold long_series. rewrite fmap_cons, qobs_reference_series.
  apply (foldl_Rmax_bounded 5 (0 :: replicate n 0 ++ [0])%R).
  constructor; [simpl; lra|]. apply Forall_app. split.
  - apply Forall_replicate. lra.
  - constructor; [lra | constructor].
Qed.

Lemma max_reference_series (n : nat) :
  Series.max (qobs <$> reference_series n) = 0%R.
Proof.
  rewrite qobs_reference_series.
  apply (foldl_Rmax_bounded 0 (replicate n 0 ++ [0])%R).
  apply Forall_app. split.
  - apply Forall_replicate. lra.
  - constructor; [lra | constructor].
Qed.

(** *** A run of [process] over the sample series *)

Lemma filter_loop_pass read_hourly (g : Z) (order : list Z) (ts : list hourly)
    (s : Stat.row) (feasible : gset Z) (statistics : list (Z * Stat.row)) :
  read_hourly g = Ok ts → gauge_check ts = Ok (Some s) →
  filter_loop read_hourly (g :: order) feasible statistics
  = filter_loop read_hourly order ({[ g ]} ∪ feasible) (stat_set statistics g s).
Proof. intros Hread Hcheck. simpl. rewrite Hread. simpl. by rewrite Hcheck. Qed.

Lemma filter_loop_skip read_hourly (g : Z) (order : list Z) (ts : list hourly)
    (feasible : gset Z) (statistics : list (Z * Stat.row)) :
  read_hourly g = Ok ts → gauge_check ts = Ok None →
  filter_loop read_hourly (g :: order) feasible statistics
  = filter_loop read_hourly order feasible statistics.
Proof. intros Hread Hcheck. simpl. rewrite Hread. simpl. by rewrite Hcheck. Qed.

Lemma process_long :
  process elements read_long 3 sample_adjacency
  = Ok (sample_adjacency,
        [ (399, Series.describe (qobs <$> long_series inner_hours));
          (1, Series.describe (qobs <$> long_series inner_hours)) ]).
Proof.
  pose proof gauge_check_long_series as Hcheck.
  assert (∀ g, read_long g = Ok (long_series inner_hours)) as Hread by done.
  revert Hcheck Hread.
  generalize (Series.describe (qobs <$> long_series inner_hours)) as d.
  generalize (long_series inner_hours) as ts. intros ts d Hcheck Hread.
  assert (merge_sort by_ID (with_slope <$> (edge_of <$> sample_adjacency))
          = sample_adjacency) as Hadj by reflexivity.
  rewrite <- Hadj at 2.
  apply (process_steps elements read_long 3 sample_adjacency
           {[ 1; 399 ]} ({[ 1 ]} ∪ ({[ 399 ]} ∪ ∅)) _
           (edge_of <$> sample_adjacency)).
  - vm_compute. reflexivity.
  - apply (bool_decide_unpack _). vm_compute. exact I.
  - assert (elements ({[ 1; 399 ]} : gset Z) = [399; 1]) as ->
      by (vm_compute; reflexivity).
    rewrite (filter_loop_pass read_long 399 [1] ts d) by done.
    rewrite (filter_loop_pass read_long 1 [] ts d) by done.
    reflexivity.
  - apply (bool_decide_unpack _). vm_compute. exact I.
  - assert (elements (connected_gauges (edge_of <$> sample_adjacency)
                        ∖ ({[ 1 ]} ∪ ({[ 399 ]} ∪ ∅))) = []) as ->
      by (vm_compute; reflexivity).
    reflexivity.
Qed.

Lemma statistics_of_feasible_gauges_witness :
  (∀ (g : Z) (s : Stat.row),
      (g, s) ∈ [ (399, Series.describe (qobs <$> long_series inner_hours));
                 (1, Series.describe (qobs <$> long_series inner_hours)) ] →
      ∃ ts : list hourly,
        read_long g = Ok ts
        ∧ Forall (λ h, (0 <= qobs h)%R) ts
        ∧ Z.of_nat (length (reference_period ts)) = (18 * 365 + 5) * 24
        ∧ s = Series.describe (qobs <$> ts))
  ∧ (∀ g : Z,
        g ∈ [ (399, Series.describe (qobs <$> long_series inner_hours));
              (1, Series.describe (qobs <$> long_series inner_hours)) ].*1
        ↔ rtc (flows (edge_of <$> sample_adjacency)) g 399
          ∧ ∃ s, passes read_long g s).
Proof.
  apply (statistics_of_feasible_gauges elements read_long 3 sample_adjacency
           sample_adjacency).
  - intros s. reflexivity.
  - exact process_long.
Defined.

(** C8 fails as stated: for a feasible gauge whose file starts before 2000,
    the persisted row is computed over the whole file (maximum 5, reached in
    1999) and differs from the statistics of the reference period (maximum
    0). *)
Lemma statistics_span_whole_series :
  ∃ s : Stat.row,
    process elements read_long 3 sample_adjacency
    = Ok (sample_adjacency, [(399, s); (1, s)])
    ∧ Stat.max s = 5%R
    ∧ Stat.max (Series.describe
                  (qobs <$> reference_period (long_series inner_hours))) = 0%R
    ∧ s ≠ Series.describe (qobs <$> reference_period (long_series inner_hours)).
Proof.
  exists (Series.describe (qobs <$> long_series inner_hours)).
  assert (Stat.max (Series.describe (qobs <$> long_series inner_hours)) = 5%R)
    as Hall by apply max_long_series.
  assert (Stat.max (Series.describe
                      (qobs <$> reference_period (long_series inner_hours)))
          = 0%R) as Href
    by (rewrite reference_period_long; apply max_reference_series).
  split; [exact process_long|]. split; [exact Hall|]. split; [exact Href|].
  intros Heq. rewrite Heq, Href in Hall. lra.
Qed.

(** ** C3: a chain through one excluded gauge *)

(** Evaluation of a filter on a table whose rows are written out. *)
Ltac filter_rows :=
  repeat first
    [ rewrite filter_nil
    | rewrite filter_cons_True by (simpl; intuition congruence)
    | rewrite filter_cons_False by (simpl; intuition congruence) ].

Section Chain.

Variables A B C : Z.
Variables d1 e1 d2 e2 : R.

Hypothesis A_not_B : A ≠ B.
Hypothesis B_not_C : B ≠ C.

Let upper : edge :=
  {| ID := A; NEXTDOWNID := B; dist_hdn := d1; elev_diff := e1 |}.
Let lower : edge :=
  {| ID := B; NEXTDOWNID := C; dist_hdn := d2; elev_diff := e2 |}.
Let merged : edge :=
  {| ID := A; NEXTDOWNID := C;
     dist_hdn := d1 + d2; elev_diff := e1 + e2 |}.

Lemma remove_middle (stream_dist : list edge) :
  stream_dist ≡ₚ [upper; lower] →
  removal_loop [B] stream_dist = Ok [merged].
Proof.
  intros Hperm. symmetry in Hperm.
  apply Permutation_length_2_inv in Hperm as [->| ->];
    unfold removal_loop, remove_gauge; filter_rows.
  - rewrite decide_False; [reflexivity|].
    intros H. apply Exists_cons in H as [H|H]; simpl in H; [congruence|].
    by apply Exists_nil in H.
  - rewrite decide_False; [reflexivity|].
    intros H. apply Exists_cons in H as [H|H]; simpl in H; [congruence|].
    by apply Exists_nil in H.
Qed.

End Chain.

Section ChainProcess.

Variable walk : gset Z → list Z.
Hypothesis walk_enumerates : ∀ s, walk s ≡ₚ elements s.
Variable read_hourly : Z → res (list hourly).

Variables A B : Z.
Variables d1 e1 k1 d2 e2 k2 : R.

Hypothesis A_not_B : A ≠ B.
Hypothesis A_not_outlet : A ≠ 399.
Hypothesis B_not_outlet : B ≠ 399.

Let upper_row : adjacency_row :=
  {| edge_of := {| ID := A; NEXTDOWNID := B; dist_hdn := d1; elev_diff := e1 |};
     strm_slope := k1 |}.
Let lower_row : adjacency_row :=
  {| edge_of := {| ID := B; NEXTDOWNID := 399; dist_hdn := d2; elev_diff := e2 |};
     strm_slope := k2 |}.

Variable raw : list adjacency_row.
Hypothesis raw_chain_rows : raw ≡ₚ [upper_row; lower_row].

Lemma chain_rows (r : edge) :
  r ∈ edge_of <$> raw ↔ r = edge_of upper_row ∨ r = edge_of lower_row.
Proof.
  rewrite raw_chain_rows. simpl.
  rewrite !elem_of_cons. split; [|tauto].
  intros [?|[?|H]]; [tauto|tauto|]. by apply elem_of_nil in H.
Qed.

Lemma chain_flows (a b : Z) :
  flows (edge_of <$> raw) a b ↔ (a = A ∧ b = B) ∨ (a = B ∧ b = 399).
Proof.
  unfold flows. split.
  - intros (r & Hr & <- & <-). apply chain_rows in Hr as [->| ->]; simpl; tauto.
  - intros [[-> ->]|[-> ->]].
    + exists (edge_of upper_row). rewrite chain_rows. tauto.
    + exists (edge_of lower_row). rewrite chain_rows. tauto.
Qed.

Lemma chain_acyclic : acyclic (edge_of <$> raw).
Proof.
  apply (ranked_acyclic
           (λ g, if decide (g = A) then 2 else if decide (g = B) then 1 else 0)).
  apply Forall_forall. intros r Hr.
  apply chain_rows in Hr as [->| ->]; simpl; repeat case_decide; congruence || lia.
Qed.

Lemma chain_upstream (g : Z) :
  rtc (flows (edge_of <$> raw)) g 399 ↔ g = A ∨ g = B ∨ g = 399.
Proof.
  split.
  - intros H. apply rtc_inv_r in H as [->|(p & H & Hp)]; [tauto|].
    apply chain_flows in Hp as [[_ ?]|[-> _]]; [congruence|].
    apply rtc_inv_r in H as [->|(p & H & Hp)]; [tauto|].
    apply chain_flows in Hp as [[-> _]|[_ ?]]; [|congruence].
    apply rtc_inv_r in H as [->|(p & H & Hp)]; [tauto|].
    apply chain_flows in Hp as [[_ ?]|[_ ?]]; congruence.
  - intros [->|[->| ->]].
    + eapply rtc_l; [apply chain_flows; left; done|].
      apply rtc_once, chain_flows. by right.
    + apply rtc_once, chain_flows. by right.
    + constructor.
Qed.

Lemma chain_connected (g : Z) :
  g ∈ connected_gauges (edge_of <$> raw) ↔ g = A ∨ g = B ∨ g = 399.
Proof.
  unfold connected_gauges.
  rewrite elem_of_union, !elem_of_list_to_set, !list_elem_of_fmap. split.
  - intros [(r & -> & Hr)|(r & -> & Hr)];
      apply chain_rows in Hr as [->| ->]; simpl; tauto.
  - intros [->|[->| ->]].
    + left. exists (edge_of upper_row). rewrite chain_rows. tauto.
    + left. exists (edge_of lower_row). rewrite chain_rows. tauto.
    + right. exists (edge_of lower_row). rewrite chain_rows. tauto.
Qed.

Hypothesis A_passes : ∃ s, passes read_hourly A s.
Hypothesis outlet_passes : ∃ s, passes read_hourly 399 s.
Hypothesis B_fails : ∃ ts, read_hourly B = Ok ts ∧ gauge_check ts = Ok None.

Variable depth : nat.
Hypothesis depth_enough : (2 < depth)%nat.

Lemma chain_process :
  ∃ statistics,
    process walk read_hourly depth raw
    = Ok ([ {| edge_of := {| ID := A; NEXTDOWNID := 399;
                             dist_hdn := d1 + d2; elev_diff := e1 + e2 |};
               strm_slope := (e1 + e2) / (d1 + d2) |} ],
          statistics)
    ∧ ∀ g, g ∈ statistics.*1 ↔ g = A ∨ g = 399.
Proof.
  destruct (collect_upstream_depth walk walk_enumerates (edge_of <$> raw) 399
              chain_acyclic depth 399 []) as [danube Hup].
  { apply NoDup_singleton. }
  { intros g Hg. apply list_elem_of_singleton in Hg as ->. left. }
  { intros g Hg. by apply elem_of_nil in Hg. }
  { rewrite length_fmap, raw_chain_rows. simpl. lia. }
  pose proof (collect_upstream_sound walk walk_enumerates _ _ _ _ Hup)
    as Hsound.
  assert (∀ g, g ∈ walk danube ↔ g = A ∨ g = B ∨ g = 399) as Hdanube.
  { intros g. by rewrite elem_of_walk, Hsound, chain_upstream. }
  destruct (filter_loop_total read_hourly (walk danube))
    with (feasible := ∅ : gset Z) (statistics := [] : list (Z * Stat.row))
    as [[feasible statistics] Hloop].
  { intros g Hg. apply Hdanube in Hg as [->|[->| ->]].
    - destruct A_passes as (s & ts & ? & ?). eauto.
    - destruct B_fails as (ts & ? & ?). eauto.
    - destruct outlet_passes as (s & ts & ? & ?). eauto. }
  pose proof (filter_loop_spec read_hourly _ _ _ _ _ Hloop) as (HF & _ & HK).
  assert (∀ g, (g ∈ walk danube ∧ ∃ s, passes read_hourly g s)
               ↔ g = A ∨ g = 399) as Hpass.
  { intros g. rewrite Hdanube. split.
    - intros [[->|[->| ->]] (s & ts' & Hread & Hcheck)]; [tauto| |tauto].
      destruct B_fails as (ts & ? & ?). congruence.
    - intros [->| ->]; split; tauto || done. }
  assert (∀ g, g ∈ feasible ↔ g = A ∨ g = 399) as HF'.
  { intros g. rewrite HF, Hpass. split; [|tauto].
    intros [H|?]; [|done]. by apply not_elem_of_empty in H. }
  assert (connected_gauges (edge_of <$> raw) ∖ feasible = {[ B ]}) as Hexcl.
  { apply set_eq. intros g.
    rewrite elem_of_difference, chain_connected, HF', elem_of_singleton.
    split; [|intros ->; intuition congruence].
    intros [[->|[->| ->]] Hnot]; [|done|]; exfalso; apply Hnot; tauto. }
  assert (walk {[ B ]} = [B]) as Hwalk.
  { apply Permutation_singleton_r.
    by rewrite walk_enumerates, elements_singleton. }
  exists statistics. split.
  - rewrite (process_steps walk read_hourly depth raw danube feasible statistics
               [ {| ID := A; NEXTDOWNID := 399;
                    dist_hdn := d1 + d2; elev_diff := e1 + e2 |} ]);
      try done.
    + intros g Hg. apply chain_connected, Hdanube.
      by apply elem_of_walk.
    + apply HF'. by right.
    + rewrite Hexcl, Hwalk.
      apply (remove_middle A B 399 d1 e1 d2 e2 A_not_B B_not_outlet).
      by rewrite raw_chain_rows.
  - intros g. rewrite HK, Hpass. split; [|tauto].
    intros [H|?]; [|done]. by apply elem_of_nil in H.
Qed.

End ChainProcess.

(** C3. Take a chain A → B → C of three distinct gauges. Removing B leaves
    exactly one row, A → C, whose distance and elevation difference are the
    sums over the two removed rows, and whose persisted slope is the summed
    elevation difference divided by the summed distance. In a run of
    [process] the last gauge of such a chain is the outlet 399; when A and
    the outlet pass the feasibility filter and B does not, the persisted
    adjacency table is that single row. *)
Theorem chain_bypass_edge (A B C : Z) (d1 e1 d2 e2 : R)
    (stream_dist : list edge) :
  A ≠ B → B ≠ C → A ≠ C →
  stream_dist
  ≡ₚ [ {| ID := A; NEXTDOWNID := B; dist_hdn := d1; elev_diff := e1 |};
       {| ID := B; NEXTDOWNID := C; dist_hdn := d2; elev_diff := e2 |} ] →
  (∃ final : list edge,
      removal_loop [B] stream_dist = Ok final
      ∧ merge_sort by_ID (with_slope <$> final)
        = [ {| edge_of := {| ID := A; NEXTDOWNID := C;
                             dist_hdn := d1 + d2; elev_diff := e1 + e2 |};
               strm_slope := (e1 + e2) / (d1 + d2) |} ])
  ∧ (∀ (walk : gset Z → list Z) (read_hourly : Z → res (list hourly))
       (depth : nat) (raw : list adjacency_row),
        (∀ s, walk s ≡ₚ elements s) →
        C = 399 →
        edge_of <$> raw = stream_dist →
        (∃ s, passes read_hourly A s) →
        (∃ s, passes read_hourly C s) →
        (∃ ts, read_hourly B = Ok ts ∧ gauge_check ts = Ok None) →
        (2 < depth)%nat →
        ∃ statistics,
          process walk read_hourly depth raw
          = Ok ([ {| edge_of := {| ID := A; NEXTDOWNID := C;
                                   dist_hdn := d1 + d2; elev_diff := e1 + e2 |};
                     strm_slope := (e1 + e2) / (d1 + d2) |} ],
                statistics)).
Proof.
  intros HAB HBC HAC Hrows. split.
  - eexists. split; [by apply (remove_middle A B C d1 e1 d2 e2)|]. reflexivity.
  - intros walk read_hourly depth raw Hwalk -> Hraw HA HC HB Hdepth.
    subst stream_dist.
    assert (∃ k1 k2,
               raw ≡ₚ [ {| edge_of := {| ID := A; NEXTDOWNID := B;
                                         dist_hdn := d1; elev_diff := e1 |};
                           strm_slope := k1 |};
                        {| edge_of := {| ID := B; NEXTDOWNID := 399;
                                         dist_hdn := d2; elev_diff := e2 |};
                           strm_slope := k2 |} ]) as (k1 & k2 & Hraw).
    { symmetry in Hrows.
      apply Permutation_length_2_inv in Hrows as [Hrows|Hrows];
        destruct raw as [|[r1 k1] [|[r2 k2] [|? ?]]]; try discriminate;
        simpl in Hrows; injection Hrows as -> ->.
      - exists k1, k2. reflexivity.
      - exists k2, k1. apply perm_swap. }
    destruct (chain_process walk Hwalk read_hourly A B d1 e1 k1 d2 e2 k2
                HAB HAC HBC raw Hraw HA HC HB depth Hdepth)
      as (statistics & Hrun & _).
    eauto.
Qed.

Lemma chain_bypass_edge_witness :
  ∃ statistics,
    process elements read_chain 3 raw_chain
    = Ok ([ {| edge_of := {| ID := 1; NEXTDOWNID := 399;
                             dist_hdn := 4 + 6; elev_diff := 2 + 3 |};
               strm_slope := (2 + 3) / (4 + 6) |} ],
          statistics).
Proof.
  destruct (chain_bypass_edge 1 2 399 4 2 6 3 (edge_of <$> raw_chain))
    as [_ Hrun]; try done.
  apply (Hrun elements read_chain 3%nat raw_chain); try done.
  - exists (Series.describe (qobs <$> long_series inner_hours)),
      (long_series inner_hours).
    split; [reflexivity | exact gauge_check_long_series].
  - exists (Series.describe (qobs <$> long_series inner_hours)),
      (long_series inner_hours).
    split; [reflexivity | exact gauge_check_long_series].
  - exists []. split; reflexivity.
  - lia.
Defined.

(** * Further properties of the flat sample index *)

Lemma py_sum_nonneg (l : list Z) : Forall (λ s, 0 ≤ s) l → 0 ≤ py_sum l.
Proof.
  induction 1 as [|a l Ha _ IH]; [by rewrite py_sum_nil|].
  rewrite py_sum_cons. lia.
Qed.

Lemma decode_loop_encode (stride : Z) (sizes : list Z) :
  Forall (λ s, 0 ≤ s) sizes →
  ∀ (i j : nat) (size r : Z),
    sizes !! j = Some size → 0 ≤ r < size →
    decode_loop stride sizes i (encode_index sizes j r)
    = Ok ((i + j)%nat, stride * r).
Proof.
  induction 1 as [|a rest Ha Hrest IH]; intros i j size r Hj Hr; [done|].
  unfold encode_index. destruct j as [|j]; simpl in Hj |- *.
  - injection Hj as ->. rewrite ?take_0, ?py_sum_nil.
    case_decide; [|lia].
    rewrite Nat.add_0_r. do 2 f_equal. lia.
  - rewrite py_sum_cons.
    pose proof (py_sum_nonneg (take j rest) (Forall_take _ _ _ Hrest)).
    case_decide; [lia|].
    replace (a + py_sum (take j rest) + r - a) with (encode_index rest j r)
      by (unfold encode_index; lia).
    rewrite (IH (S i) j size r Hj Hr). do 2 f_equal. lia.
Qed.

(** X1. Encoding then decoding: when no year size is negative, the flat
    index made of the sizes of the years before position [j] plus a rank
    [r] inside year [j] decodes to the tensor of year [j] and the offset
    [stride_length_hrs * r]. *)
Theorem encode_then_decode (ds : LamaHDataset) (j : nat) (t : list (list R))
    (size r : Z) :
  Forall (λ s, 0 ≤ s) (year_sizes ds) →
  year_sizes ds !! j = Some size →
  year_tensors ds !! j = Some t →
  0 ≤ r < size →
  _decode_index ds (encode_index (year_sizes ds) j r)
  = Ok (t, stride_length_hrs ds * r).
Proof.
  intros Hnn Hj Ht Hr. unfold _decode_index.
  rewrite (decode_loop_encode _ _ Hnn 0 j size r Hj Hr). simpl. by rewrite Ht.
Qed.

Lemma encode_then_decode_witness :
  _decode_index sample_ds (encode_index (year_sizes sample_ds) 1 240)
  = Ok ([[8]; [3]]%R, 240).
Proof.
  apply (encode_then_decode sample_ds 1 [[8]; [3]]%R 8736 240).
  - repeat constructor; discriminate.
  - reflexivity.
  - reflexivity.
  - lia.
Defined.

(** X2. Two different valid flat indices never decode to the same year
    position and offset, provided the stride is not zero: no two samples of
    the dataset address the same window. *)
Theorem decode_injective (stride : Z) (sizes : list Z) (idx idx' : Z) :
  stride ≠ 0 →
  0 ≤ idx < py_sum sizes →
  0 ≤ idx' < py_sum sizes →
  idx ≠ idx' →
  decode_loop stride sizes 0 idx ≠ decode_loop stride sizes 0 idx'.
Proof.
  intros Hs Hidx Hidx' Hne Heq.
  destruct (decode_loop_hit stride sizes 0 idx Hidx) as (j & ? & _ & _ & _ & Hd).
  destruct (decode_loop_hit stride sizes 0 idx' Hidx')
    as (j' & ? & _ & _ & _ & Hd').
  rewrite Hd, Hd' in Heq. injection Heq as Hj Hoff.
  apply Z.mul_reg_l in Hoff; [|done]. simpl in Hj. subst j'. lia.
Qed.

Lemma decode_injective_witness :
  decode_loop 1 [8760; 8736] 0 8759 ≠ decode_loop 1 [8760; 8736] 0 8760.
Proof.
  apply (decode_injective 1 [8760; 8736] 8759 8760).
  - discriminate.
  - vm_compute. split; [discriminate | reflexivity].
  - vm_compute. split; [discriminate | reflexivity].
  - discriminate.
Defined.

Lemma decode_loop_past_end (stride : Z) (sizes : list Z) :
  Forall (λ s, 0 ≤ s) sizes →
  ∀ (i : nat) (idx : Z),
    py_sum sizes ≤ idx → decode_loop stride sizes i idx = Raise AssertionError.
Proof.
  induction 1 as [|a rest Ha Hrest IH]; intros i idx Hidx; [done|].
  rewrite py_sum_cons in Hidx. simpl.
  destruct (decide (idx - a < 0)) as [Hneg|_].
  - pose proof (py_sum_nonneg rest Hrest). lia.
  - apply IH. lia.
Qed.

(** X3. Past the end: when no year size is negative, every index at or
    beyond [len] falls out of the decoding loop, so [_decode_index] and
    [get] raise the assertion error (and not an index error). *)
Theorem index_past_end (ds : LamaHDataset) (idx : Z) :
  Forall (λ s, 0 ≤ s) (year_sizes ds) →
  len ds ≤ idx →
  _decode_index ds idx = Raise AssertionError
  ∧ get ds idx = Raise AssertionError.
Proof.
  intros Hnn Hidx.
  assert (_decode_index ds idx = Raise AssertionError) as Hdec.
  { unfold _decode_index. by rewrite decode_loop_past_end. }
  split; [exact Hdec|]. unfold get. by rewrite Hdec.
Qed.

Lemma index_past_end_witness :
  _decode_index sample_ds 17496 = Raise AssertionError
  ∧ get sample_ds 17496 = Raise AssertionError.
Proof.
  apply (index_past_end sample_ds 17496).
  - repeat constructor; discriminate.
  - vm_compute. discriminate.
Defined.

(** X4. Below zero: a negative index is not rejected. When the first year
    size is not negative, [_decode_index] returns the tensor of the first
    year with the negative offset [stride_length_hrs * idx]. *)
Theorem negative_index_decodes (ds : LamaHDataset) (idx size : Z)
    (sizes : list Z) (t : list (list R)) (tensors : list (list (list R))) :
  year_sizes ds = size :: sizes →
  year_tensors ds = t :: tensors →
  0 ≤ size →
  idx < 0 →
  _decode_index ds idx = Ok (t, stride_length_hrs ds * idx).
Proof.
  intros Hs Ht Hsize Hidx. unfold _decode_index. rewrite Hs, Ht. simpl.
  destruct (decide (idx - size < 0)); [|lia]. simpl. do 2 f_equal. lia.
Qed.

Lemma negative_index_decodes_witness :
  _decode_index sample_ds (-1) = Ok ([[6; 7]; [1; 2]]%R, -1).
Proof.
  apply (negative_index_decodes sample_ds (-1) 8760 [8736]
           [[6; 7]; [1; 2]]%R [[[8]; [3]]]%R).
  - reflexivity.
  - reflexivity.
  - discriminate.
  - reflexivity.
Defined.




(** * Further properties of the constructor *)

(** X6. With a positive stride, a configured year contributes at least one
    sample exactly when the window and the lead time together fit into the
    hours of the year; otherwise its entry of [year_sizes] is zero or
    negative. *)
Theorem year_size_positive_iff (w s l year size : Z) :
  0 < s →
  year_size w s l year = Ok size →
  (1 ≤ size ↔ w + l ≤ hours_in_year year).
Proof.
  intros Hs Hsize. apply year_size_Ok in Hsize as [_ ->]. split.
  - intros Hq. destruct (decide (w + l ≤ hours_in_year year)); [done|].
    assert ((hours_in_year year - w - l) `div` s < 0)
      by (apply Z.div_lt_upper_bound; lia). lia.
  - intros Hfit.
    assert (0 ≤ (hours_in_year year - w - l) `div` s)
      by (apply Z.div_pos; lia). lia.
Qed.

Lemma year_size_positive_iff_witness :
  1 ≤ -240 ↔ 9000 + 1 ≤ hours_in_year 2001.
Proof.
  apply (year_size_positive_iff 9000 1 1 2001 (-240)).
  - reflexivity.
  - reflexivity.
Defined.

Lemma init_fields read adjacency statistics ys w s l norm ds :
  __init__ read adjacency statistics ys w s l norm = Ok ds →
  normalized ds = norm
  ∧ edge_attr ds
    = (λ r : adjacency_row, [dist_hdn r; elev_diff r; strm_slope r]) <$> adjacency
  ∧ mean ds = (λ p, [Stat.mean p.2]) <$> statistics
  ∧ std ds = (λ p, [Stat.std p.2]) <$> statistics.
Proof.
  unfold __init__. intros H.
  apply bind_Ok in H as (sizes & _ & H).
  apply bind_Ok in H as (cols & _ & H).
  apply bind_Ok in H as (edges & _ & H).
  apply bind_Ok in H as (weights & Hweights & H).
  apply bind_Ok in H as (means & Hmeans & H).
  apply bind_Ok in H as (stds & Hstds & H).
  apply bind_Ok in H as (dfs & _ & H).
  apply bind_Ok in H as (tensors & _ & H).
  apply torch_tensor_Ok in Hweights as [_ ->].
  apply torch_tensor_Ok in Hmeans as [_ ->].
  apply torch_tensor_Ok in Hstds as [_ ->].
  by injection H as <-.
Qed.

Lemma torch_stack_Ok (rows t : list (list R)) :
  torch_stack rows = Ok t →
  t = rows ∧ rows ≠ [] ∧ Forall (λ row, length row = ncols rows) rows.
Proof.
  unfold torch_stack. destruct rows as [|r rest]; [discriminate|].
  destruct (forallb _ rest) eqn:Hall; [|discriminate].
  intros [= <-]. split; [done|]. split; [done|].
  constructor; [done|]. apply Forall_forall. intros r' Hr'.
  rewrite forallb_forall in Hall.
  apply list_elem_of_In, Hall in Hr'. by apply bool_decide_eq_true_1 in Hr'.
Qed.

Lemma year_values_raw (year : Z) (df : list hourly) :
  year_values year ((λ h, (YYYY h, qobs h)) <$> df)
  = qobs <$> filter (λ h, YYYY h = year) df.
Proof.
  unfold year_values. induction df as [|h df IH]; [done|].
  rewrite fmap_cons. destruct (decide (YYYY h = year)) as [Hy|Hy].
  - rewrite !filter_cons_True by done. rewrite !fmap_cons. f_equal. exact IH.
  - rewrite !filter_cons_False by done. exact IH.
Qed.

(** X7. In a dataset constructed without normalisation, every configured
    year has its tensor; the tensor is rectangular and has one row per
    gauge, in the order of the gauge list, and the row of a gauge holds the
    [qobs] values of exactly those rows of the gauge's file whose [YYYY] is
    that year, in file order. *)
Theorem year_tensor_rows read adjacency statistics ys w s l ds :
  __init__ read adjacency statistics ys w s l false = Ok ds →
  Forall2
    (λ (year : Z) (t : list (list R)),
       t ≠ []
       ∧ Forall (λ row, length row = ncols t) t
       ∧ Forall2
           (λ (g : Z) (row : list R),
              ∃ df, read g = Ok df
                    ∧ row = qobs <$> filter (λ h, YYYY h = year) df)
           (gauges ds) t)
    ys (year_tensors ds).
Proof.
  intros Hinit.
  apply init_Ok in Hinit as (cols & dfs & _ & _ & Hdfs & Ht & _ & _ & _ & _ & Hg & _).
  rewrite Hg. apply mapM_res_Ok in Hdfs, Ht.
  eapply Forall2_impl; [exact Ht|]. intros year t Hstack. simpl in Hstack.
  apply torch_stack_Ok in Hstack as (-> & Hne & Hrect).
  split; [done|]. split; [done|].
  apply Forall2_fmap_r. eapply Forall2_impl; [exact Hdfs|].
  intros g df Hload. simpl. unfold load_gauge in Hload.
  apply bind_Ok in Hload as (raw & Hread & Hload). injection Hload as <-.
  exists raw. split; [done|]. apply year_values_raw.
Qed.

Lemma year_tensor_rows_witness :
  Forall2
    (λ (year : Z) (t : list (list R)),
       t ≠ []
       ∧ Forall (λ row, length row = ncols t) t
       ∧ Forall2
           (λ (g : Z) (row : list R),
              ∃ df, sample_hours g = Ok df
                    ∧ row = qobs <$> filter (λ h, YYYY h = year) df)
           (gauges sample_ds) t)
    [2000; 2001] [[[6; 7]; [1; 2]]; [[8]; [3]]]%R.
Proof.
  apply (year_tensor_rows sample_hours sample_adjacency two_statistics
           [2000; 2001] 24 1 1 sample_ds).
  vm_compute. reflexivity.
Defined.

(** * Further properties of the upstream traversal *)

Lemma mapM_res_Raise {A B} (f : A → res B) (l : list A) (e : exn) :
  mapM_res f l = Raise e → ∃ a, a ∈ l ∧ f a = Raise e.
Proof.
  induction l as [|a l IH]; simpl; [discriminate|].
  destruct (f a) as [b|e'] eqn:Hfa; simpl.
  - destruct (mapM_res f l) as [bs|e'']; simpl; [discriminate|].
    intros [= ->]. destruct IH as (a' & Ha' & Hfa'); [done|].
    exists a'. split; [by right | done].
  - intros [= ->]. exists a. split; [left | done].
Qed.

Lemma tc_inv_last {A} (R : relation A) (x z : A) :
  tc R x z → ∃ y, rtc R x y ∧ R y z.
Proof.
  induction 1 as [x z Hxz|x y z Hxy _ (y' & Hyy' & Hy'z)].
  - exists x. split; [constructor | done].
  - exists y'. split; [by eapply rtc_l | done].
Qed.

Section UpstreamErrors.

Variable walk : gset Z → list Z.
Hypothesis walk_enumerates : ∀ s, walk s ≡ₚ elements s.
Variable stream_dist : list edge.

(** The only exception of the traversal is the exhausted recursion depth. *)
Lemma collect_upstream_Raise (depth : nat) :
  ∀ (id : Z) (e : exn),
    collect_upstream walk depth stream_dist id = Raise e → e = RecursionError.
Proof.
  induction depth as [|depth IH]; intros id e H; simpl in H.
  - by injection H as <-.
  - case_decide; [discriminate|].
    destruct (mapM_res _ _) as [sets|e'] eqn:Hsets; simpl in H; [discriminate|].
    injection H as ->. apply mapM_res_Raise in Hsets as (p & _ & Hp).
    by eapply IH.
Qed.

(** A call that returns has called every predecessor with success. *)
Lemma collect_upstream_pred (depth : nat) (id p : Z) (ups : gset Z) :
  collect_upstream walk (S depth) stream_dist id = Ok ups →
  flows stream_dist p id →
  ∃ ups', collect_upstream walk depth stream_dist p = Ok ups'.
Proof.
  intros H Hp. simpl in H. apply elem_of_predecessors in Hp.
  case_decide as Hnone.
  - apply size_empty_iff in Hnone. apply Hnone in Hp.
    by apply not_elem_of_empty in Hp.
  - apply bind_Ok in H as (sets & Hsets & _). apply mapM_res_Ok in Hsets.
    apply (elem_of_walk walk walk_enumerates), list_elem_of_lookup in Hp
      as [k Hk].
    destruct (Forall2_lookup_l _ _ _ _ _ Hsets Hk) as (U & _ & HU). eauto.
Qed.

(** Downstream of a gauge that lies on a cycle, no call returns. *)
Lemma collect_upstream_cycle (g : Z) :
  tc (flows stream_dist) g g →
  ∀ (depth : nat) (id : Z) (ups : gset Z),
    rtc (flows stream_dist) g id →
    collect_upstream walk depth stream_dist id ≠ Ok ups.
Proof.
  intros Hcyc. induction depth as [|depth IH]; intros id ups Hreach H;
    [discriminate|].
  assert (∃ p, rtc (flows stream_dist) g p ∧ flows stream_dist p id)
    as (p & Hgp & Hp).
  { apply rtc_inv_r in Hreach as [<-|?]; [|done]. by apply tc_inv_last. }
  destruct (collect_upstream_pred depth id p ups H Hp) as [ups' Hups'].
  by apply (IH p ups').
Qed.

End UpstreamErrors.

(** X8. On a table with a cycle upstream of the start (a gauge that lies
    downstream of itself and from which the start is reachable), the
    upstream traversal never returns: whatever recursion depth is
    available, it ends in the recursion error, and so does [process] when
    the start is the outlet 399. *)
Theorem collect_upstream_cyclic (walk : gset Z → list Z)
    (read_hourly : Z → res (list hourly)) (raw : list adjacency_row)
    (g outlet : Z) (depth : nat) :
  (∀ s, walk s ≡ₚ elements s) →
  tc (flows (edge_of <$> raw)) g g →
  rtc (flows (edge_of <$> raw)) g outlet →
  collect_upstream walk depth (edge_of <$> raw) outlet = Raise RecursionError
  ∧ (outlet = 399 →
     process walk read_hourly depth raw = Raise RecursionError).
Proof.
  intros Hwalk Hcyc Hreach.
  assert (collect_upstream walk depth (edge_of <$> raw) outlet
          = Raise RecursionError) as Hraise.
  { destruct (collect_upstream walk depth (edge_of <$> raw) outlet)
      as [ups|e] eqn:Hrun.
    - by apply (collect_upstream_cycle walk Hwalk _ g Hcyc) in Hrun.
    - f_equal. by eapply collect_upstream_Raise. }
  split; [exact Hraise|]. intros ->. unfold process. by rewrite Hraise.
Qed.

Lemma collect_upstream_cyclic_witness :
  collect_upstream elements 7 (edge_of <$> cyclic_raw) 399 = Raise RecursionError
  ∧ (399 = 399 →
     process elements no_rows 7 cyclic_raw = Raise RecursionError).
Proof.
  apply (collect_upstream_cyclic elements no_rows cyclic_raw 399 399 7).
  - intros s. reflexivity.
  - apply tc_l with 5; [|apply tc_once].
    + eexists. split; [left|]. done.
    + eexists. split; [right; left|]. done.
  - constructor.
Defined.

(** X9. The set returned by the upstream traversal depends neither on the
    order in which predecessor sets are walked nor on the recursion depth
    that was available: any two runs that return, return the same set. *)
Theorem collect_upstream_order_independent (walk walk' : gset Z → list Z)
    (stream_dist : list edge) (id : Z) (depth depth' : nat)
    (ups ups' : gset Z) :
  (∀ s, walk s ≡ₚ elements s) →
  (∀ s, walk' s ≡ₚ elements s) →
  collect_upstream walk depth stream_dist id = Ok ups →
  collect_upstream walk' depth' stream_dist id = Ok ups' →
  ups = ups'.
Proof.
  intros Hwalk Hwalk' Hups Hups'. apply set_eq. intros g.
  rewrite (collect_upstream_sound walk Hwalk _ _ _ _ Hups g).
  by rewrite (collect_upstream_sound walk' Hwalk' _ _ _ _ Hups' g).
Qed.

Lemma collect_upstream_order_independent_witness :
  ({[ 1; 2; 3; 399 ]} : gset Z) = {[ 399; 3; 2; 1 ]}.
Proof.
  apply (collect_upstream_order_independent elements walk_backwards
           sample_stream 399 5 9).
  - intros s. reflexivity.
  - intros s. apply reverse_Permutation.
  - vm_compute. reflexivity.
  - vm_compute. reflexivity.
Defined.

(** * Failures of [process] *)

Lemma predecessors_empty (stream_dist : list edge) (id : Z) :
  id ∉ connected_gauges stream_dist → predecessors stream_dist id = ∅.
Proof.
  intros Hid. apply set_eq. intros p. rewrite elem_of_predecessors. split.
  - intros Hp. by apply flows_connected in Hp as [_ ?].
  - intros Hp. by apply not_elem_of_empty in Hp.
Qed.

(** X10. When the outlet 399 occurs neither as ID nor as NEXTDOWNID of the
    raw stream table, [process] stops at its first assertion (the gauges
    upstream of the outlet are not a subset of the connected gauges), for
    every positive recursion depth and before any hourly file is read. *)
Theorem process_outlet_absent (walk : gset Z → list Z)
    (read_hourly : Z → res (list hourly)) (raw : list adjacency_row)
    (depth : nat) :
  399 ∉ connected_gauges (edge_of <$> raw) →
  process walk read_hourly (S depth) raw = Raise AssertionError.
Proof.
  intros Habsent. unfold process. simpl.
  rewrite (predecessors_empty _ _ Habsent), size_empty.
  rewrite decide_True by done. simpl.
  rewrite bool_decide_eq_false_2; [done|].
  intros Hsub. apply Habsent, Hsub. by apply elem_of_singleton.
Qed.

Lemma process_outlet_absent_witness :
  process elements no_rows 1 [] = Raise AssertionError.
Proof.
  apply (process_outlet_absent elements no_rows [] 0).
  vm_compute. intros H; discriminate H.
Defined.

(** X11. When every file upstream of the outlet can be read and checked but
    the outlet itself does not pass the feasibility filter, [process]
    stops at its second assertion: no table is persisted. *)
Theorem process_outlet_infeasible (walk : gset Z → list Z)
    (read_hourly : Z → res (list hourly)) (raw : list adjacency_row)
    (depth : nat) :
  (∀ s, walk s ≡ₚ elements s) →
  acyclic (edge_of <$> raw) →
  (length raw < depth)%nat →
  399 ∈ connected_gauges (edge_of <$> raw) →
  (∀ g, rtc (flows (edge_of <$> raw)) g 399 →
        ∃ ts verdict, read_hourly g = Ok ts ∧ gauge_check ts = Ok verdict) →
  (∀ s, ¬ passes read_hourly 399 s) →
  process walk read_hourly depth raw = Raise AssertionError.
Proof.
  intros Hwalk Hacyc Hdepth Hout Hfiles Hinfeasible.
  destruct (collect_upstream_depth walk Hwalk (edge_of <$> raw) 399 Hacyc
              depth 399 []) as [danube Hup].
  { apply NoDup_singleton. }
  { intros g Hg. apply list_elem_of_singleton in Hg as ->. left. }
  { intros g Hg. by apply elem_of_nil in Hg. }
  { rewrite length_fmap. simpl. lia. }
  pose proof (collect_upstream_sound walk Hwalk _ _ _ _ Hup) as Hsound.
  destruct (filter_loop_total read_hourly (walk danube)) with (feasible := ∅ : gset Z)
    (statistics := [] : list (Z * Stat.row)) as [[feasible statistics] Hloop].
  { intros g Hg. apply Hfiles, Hsound. by apply elem_of_walk in Hg. }
  pose proof (filter_loop_spec read_hourly _ _ _ _ _ Hloop) as (HF & _ & _).
  unfold process. rewrite Hup. simpl.
  rewrite bool_decide_eq_true_2.
  2:{ intros g Hg. apply Hsound, rtc_flows_source in Hg as [->|Hg]; done. }
  simpl. rewrite Hloop. simpl.
  rewrite bool_decide_eq_false_2; [done|].
  intros Hin. apply HF in Hin as [Hin|[_ [s Hs]]].
  - by apply not_elem_of_empty in Hin.
  - by apply (Hinfeasible s).
Qed.

Lemma process_outlet_infeasible_witness :
  process elements no_rows 2 sample_adjacency = Raise AssertionError.
Proof.
  apply (process_outlet_infeasible elements no_rows sample_adjacency 2).
  - intros s. reflexivity.
  - apply (ranked_acyclic (λ g, - g)). repeat constructor.
  - simpl. lia.
  - vm_compute. reflexivity.
  - intros g _. exists [], None. split; reflexivity.
  - intros s (ts & Hread & Hcheck). injection Hread as <-. discriminate.
Defined.

(** * Further properties of the feasibility filter *)

(** X12. A single negative discharge reading anywhere in the file of a
    gauge, inside or outside the years 2000-2017, makes the filtering loop
    pass the gauge over: it is not feasible, no statistics are stored for
    it, and no assertion is evaluated. *)
Theorem negative_reading_excludes (ts : list hourly) :
  Exists (λ h, (qobs h < 0)%R) ts → gauge_check ts = Ok None.
Proof.
  intros Hneg. unfold gauge_check.
  destruct (forallb _ ts) eqn:Hall; [|done]. exfalso.
  apply Exists_exists in Hneg as (h & Hh & Hq).
  rewrite forallb_forall in Hall. apply list_elem_of_In, Hall in Hh.
  apply bool_decide_eq_true_1 in Hh. lra.
Qed.

Lemma negative_reading_excludes_witness :
  gauge_check
    [ {| YYYY := 1985; MM := 3; DD := 1; hh := 0; mm := 0; qobs := -1 |} ]
  = Ok None.
Proof.
  apply negative_reading_excludes. constructor. simpl. lra.
Defined.

(** X13. The loop body raises no exception other than the assertion error,
    and it raises that one exactly when no reading of the file is negative,
    the file has the full 157800 rows of 2000-2017, and the first or the
    last of these rows does not carry the expected time stamp. *)
Theorem gauge_check_assertion (ts : list hourly) (e : exn) :
  gauge_check ts = Raise e
  ↔ e = AssertionError
    ∧ Forall (λ h, (0 <= qobs h)%R) ts
    ∧ Z.of_nat (length (reference_period ts)) = (18 * 365 + 5) * 24
    ∧ ¬ (stamp <$> head (reference_period ts) = Some (2000, 1, 1, 0, 0)
         ∧ stamp <$> last (reference_period ts) = Some (2017, 12, 31, 23, 0)).
Proof.
  unfold gauge_check. split.
  - destruct (forallb _ ts) eqn:Hall; [|discriminate].
    case_decide as Hlen; [|discriminate].
    unfold py_assert. case_bool_decide as Hstamp; simpl; [discriminate|].
    intros [= <-]. repeat split; try done.
    apply Forall_forall. intros h Hh.
    rewrite forallb_forall in Hall. apply list_elem_of_In, Hall in Hh.
    by apply bool_decide_eq_true_1 in Hh.
  - intros (-> & Hall & Hlen & Hstamp).
    assert (forallb (λ h, bool_decide (0 <= qobs h)%R) ts = true) as ->.
    { apply forallb_forall. intros h Hh. apply bool_decide_eq_true_2.
      rewrite Forall_forall in Hall. by apply Hall, list_elem_of_In. }
    rewrite decide_True by done.
    by rewrite bool_decide_eq_false_2.
Qed.

(** * The statistics table *)

Lemma stat_loc_set_eq (statistics : list (Z * Stat.row)) (g : Z) (s : Stat.row) :
  stat_loc (stat_set statistics g s) g = Ok s.
Proof.
  induction statistics as [|[k s'] rest IH]; simpl.
  - by rewrite decide_True.
  - destruct (decide (k = g)) as [->|Hk]; simpl.
    + by rewrite decide_True.
    + by rewrite decide_False.
Qed.

Lemma stat_loc_set_ne (statistics : list (Z * Stat.row)) (g g' : Z)
    (s : Stat.row) :
  g ≠ g' →
  stat_loc (stat_set statistics g s) g' = stat_loc statistics g'.
Proof.
  intros Hne. induction statistics as [|[k s'] rest IH]; simpl.
  - by rewrite decide_False.
  - destruct (decide (k = g)) as [->|Hk]; simpl.
    + by rewrite !decide_False.
    + destruct (decide (k = g')); [done | exact IH].
Qed.

Lemma stat_loc_missing (statistics : list (Z * Stat.row)) (g : Z) :
  g ∉ statistics.*1 → stat_loc statistics g = Raise KeyError.
Proof.
  induction statistics as [|[k s] rest IH]; simpl; [done|].
  intros Hg. apply not_elem_of_cons in Hg as [Hne Hg].
  rewrite decide_False by done. by apply IH.
Qed.

Lemma stat_set_fst (statistics : list (Z * Stat.row)) (g : Z) (s : Stat.row) :
  (stat_set statistics g s).*1
  = if decide (g ∈ statistics.*1) then statistics.*1 else statistics.*1 ++ [g].
Proof.
  induction statistics as [|[k s'] rest IH].
  - rewrite decide_False; [done|]. apply not_elem_of_nil.
  - cbn [stat_set]. rewrite (fmap_cons fst (k, s') rest). cbn [fst].
    destruct (decide (k = g)) as [->|Hk].
    + rewrite decide_True; [done|]. left.
    + rewrite fmap_cons, IH. cbn [fst].
      destruct (decide (g ∈ rest.*1)) as [Hin|Hnot].
      * rewrite decide_True; [done|]. by right.
      * rewrite decide_False; [done|].
        intros Hin. apply elem_of_cons in Hin as [->|Hin]; done.
Qed.

Lemma stat_set_NoDup (statistics : list (Z * Stat.row)) (g : Z) (s : Stat.row) :
  NoDup statistics.*1 → NoDup (stat_set statistics g s).*1.
Proof.
  intros Hnd. rewrite stat_set_fst. case_decide as Hg; [done|].
  apply NoDup_app. split; [done|]. split; [|apply NoDup_singleton].
  intros k Hk Hk'. apply list_elem_of_singleton in Hk' as ->. done.
Qed.

Lemma filter_loop_NoDup read_hourly (order : list Z) :
  ∀ (feasible : gset Z) (statistics : list (Z * Stat.row))
    (feasible' : gset Z) (statistics' : list (Z * Stat.row)),
    filter_loop read_hourly order feasible statistics
    = Ok (feasible', statistics') →
    NoDup statistics.*1 → NoDup statistics'.*1.
Proof.
  induction order as [|g order IH]; intros F S F' S' H Hnd; simpl in H.
  - by injection H as <- <-.
  - apply bind_Ok in H as (ts & _ & H).
    apply bind_Ok in H as (verdict & _ & H).
    destruct verdict as [s|]; eapply IH; try exact H; try done.
    by apply stat_set_NoDup.
Qed.

Lemma NoDup_fst_functional {A B} (l : list (A * B)) (a : A) (b b' : B) :
  NoDup l.*1 → (a, b) ∈ l → (a, b') ∈ l → b = b'.
Proof.
  induction l as [|[a0 b0] l IH]; simpl; intros Hnd Hb Hb'.
  - by apply elem_of_nil in Hb.
  - apply NoDup_cons in Hnd as [Hnotin Hnd].
    apply elem_of_cons in Hb as [Hb|Hb];
      apply elem_of_cons in Hb' as [Hb'|Hb']; simplify_eq; try done.
    + exfalso. apply Hnotin. by apply (list_elem_of_fmap_2 fst l (a0, b')).
    + exfalso. apply Hnotin. by apply (list_elem_of_fmap_2 fst l (a0, b)).
    + by apply IH.
Qed.

Lemma stat_loc_Ok (statistics : list (Z * Stat.row)) (g : Z) (s : Stat.row) :
  stat_loc statistics g = Ok s → (g, s) ∈ statistics.
Proof.
  induction statistics as [|[k s'] rest IH]; simpl; [discriminate|].
  case_decide as Hk.
  - intros [= ->]. subst. left.
  - intros H. right. by apply IH.
Qed.

Lemma stat_loc_present (statistics : list (Z * Stat.row)) (g : Z) :
  g ∈ statistics.*1 → ∃ s, stat_loc statistics g = Ok s.
Proof.
  induction statistics as [|[k s'] rest IH]; simpl; intros Hg.
  - by apply elem_of_nil in Hg.
  - case_decide as Hk; [eauto|].
    apply elem_of_cons in Hg as [->|Hg]; [done|]. by apply IH.
Qed.

(** X14. The statistics table persisted by [process] has at most one row
    per gauge: its ID column has no duplicates, so two rows with the same
    ID are the same row. *)
Theorem statistics_ids_unique walk read_hourly depth raw adjacency statistics :
  process walk read_hourly depth raw = Ok (adjacency, statistics) →
  NoDup statistics.*1
  ∧ ∀ (g : Z) (s s' : Stat.row),
      (g, s) ∈ statistics → (g, s') ∈ statistics → s = s'.
Proof.
  intros H.
  apply process_Ok in H as (danube & feasible & final & _ & _ & Hloop & _).
  apply filter_loop_NoDup in Hloop; [|constructor].
  split; [done|]. intros g s s'. by apply NoDup_fst_functional.
Qed.

Lemma statistics_ids_unique_witness :
  NoDup [ (399, Series.describe (qobs <$> long_series inner_hours));
          (1, Series.describe (qobs <$> long_series inner_hours)) ].*1.
Proof.
  apply (statistics_ids_unique elements read_long 3 sample_adjacency
           sample_adjacency _ process_long).
Defined.

(** * Further properties of the removal loop *)

(** The drainage relation after one removal: rows that do not touch the
    gauge, and one shortcut for every way through the gauge. *)
Lemma remove_gauge_flows (stream_dist : list edge) (g : Z) (after : list edge) :
  remove_gauge stream_dist g = Ok after →
  ¬ flows stream_dist g g
  ∧ ∀ a b,
      flows after a b
      ↔ (flows stream_dist a b ∧ a ≠ g ∧ b ≠ g)
        ∨ (flows stream_dist a g ∧ flows stream_dist g b).
Proof.
  intros H. apply remove_gauge_rows in H as [Hloop Hrows]. split.
  - intros (r & Hr & Hi & Hn). by apply (Hloop r).
  - intros a b. unfold flows. split.
    + intros (r & Hr & <- & <-). apply Hrows in Hr
        as [(Hr & ? & ?)|(inc & out & Hinc & Hn & Hout & Hi & ->)].
      * left. split; [by exists r | done].
      * right. simpl. split; [by exists inc | by exists out].
    + intros [((r & Hr & <- & <-) & ? & ?)
             |((inc & Hinc & <- & Hn) & (out & Hout & Hi & <-))].
      * exists r. split; [|done]. apply Hrows. by left.
      * exists (bypass_edge inc out). split; [|done].
        apply Hrows. right. exists inc, out. done.
Qed.

Lemma remove_gauge_absent (stream_dist : list edge) (g : Z) :
  absent stream_dist g → remove_gauge stream_dist g = Ok stream_dist.
Proof.
  intros Habs. unfold remove_gauge.
  assert (filter (λ r, ID r = g) stream_dist = []) as ->
    by (apply filter_empty_iff; intros r Hr; by apply Habs).
  assert (filter (λ r, NEXTDOWNID r = g) stream_dist = []) as ->
    by (apply filter_empty_iff; intros r Hr; by apply Habs).
  rewrite decide_False by (intros H; by apply Exists_nil in H).
  rewrite (filter_all (λ r, NEXTDOWNID r ≠ g))
    by (apply Forall_forall; intros r Hr; by apply Habs).
  rewrite (filter_all (λ r, ID r ≠ g))
    by (apply Forall_forall; intros r Hr; by apply Habs).
  by rewrite app_nil_r.
Qed.

Lemma removal_loop_absent (order : list Z) (stream_dist : list edge) :
  Forall (absent stream_dist) order →
  removal_loop order stream_dist = Ok stream_dist.
Proof.
  induction 1 as [|g order Hg _ IH]; simpl; [done|].
  by rewrite remove_gauge_absent.
Qed.

(** X15. Removing a gauge that no row of the table mentions leaves the
    table exactly as it is, and so does a whole removal loop over such
    gauges. As a removed gauge is no longer mentioned, removing the same
    gauge a second time changes nothing. *)
Theorem remove_gauge_idempotent (stream_dist : list edge) (g : Z) :
  (absent stream_dist g → remove_gauge stream_dist g = Ok stream_dist)
  ∧ (∀ order, Forall (absent stream_dist) order →
              removal_loop order stream_dist = Ok stream_dist)
  ∧ (∀ after, remove_gauge stream_dist g = Ok after →
              remove_gauge after g = Ok after
              ∧ removal_loop [g; g] stream_dist = Ok after).
Proof.
  split; [apply remove_gauge_absent|]. split; [intros order; apply removal_loop_absent|].
  intros after Hrm.
  assert (remove_gauge after g = Ok after) as Hagain
    by (apply remove_gauge_absent; by eapply remove_gauge_clears).
  split; [done|]. simpl. rewrite Hrm. simpl. by rewrite Hagain.
Qed.

Lemma remove_gauge_idempotent_witness :
  ∃ after,
    remove_gauge sample_chain 2 = Ok after
    ∧ remove_gauge after 2 = Ok after
    ∧ removal_loop [2; 2] sample_chain = Ok after
    ∧ remove_gauge sample_chain 8 = Ok sample_chain.
Proof.
  destruct (remove_gauge_idempotent sample_chain 2) as (_ & _ & Htwice).
  destruct (remove_gauge_idempotent sample_chain 8) as (Hfresh & _ & _).
  eexists. split; [vm_compute; reflexivity|].
  split; [|split].
  - apply Htwice. vm_compute. reflexivity.
  - apply Htwice. vm_compute. reflexivity.
  - apply Hfresh. intros r Hr.
    repeat (apply elem_of_cons in Hr as [->|Hr]; [simpl; split; discriminate|]).
    by apply elem_of_nil in Hr.
Defined.

(** Paths between other gauges survive one removal, in both directions. *)
Lemma remove_gauge_reach (stream_dist : list edge) (g : Z) (after : list edge) :
  remove_gauge stream_dist g = Ok after →
  ∀ a b, a ≠ g → b ≠ g →
         (tc (flows stream_dist) a b ↔ tc (flows after) a b).
Proof.
  intros Hrm. apply remove_gauge_flows in Hrm as [Hloop Hflows].
  assert (∀ a b, tc (flows stream_dist) a b → b ≠ g →
                 (a ≠ g → tc (flows after) a b)
                 ∧ (a = g → ∀ x, flows stream_dist x g → tc (flows after) x b))
    as Hforth.
  { induction 1 as [a b Hab|a y b Hay Hyb IH]; intros Hb.
    - split.
      + intros Ha. apply tc_once, Hflows. by left.
      + intros -> x Hx. apply tc_once, Hflows. by right.
    - destruct (IH Hb) as [IHkeep IHskip]. split.
      + intros Ha. destruct (decide (y = g)) as [->|Hy].
        * by apply IHskip.
        * eapply tc_l; [|by apply IHkeep]. apply Hflows. by left.
      + intros -> x Hx.
        assert (y ≠ g) as Hy by (intros ->; done).
        eapply tc_l; [|by apply IHkeep]. apply Hflows. by right. }
  assert (∀ a b, tc (flows after) a b → tc (flows stream_dist) a b) as Hback.
  { assert (∀ a b, flows after a b → tc (flows stream_dist) a b) as Hstep.
    { intros a b Hab. apply Hflows in Hab as [(? & _ & _)|[? ?]].
      - by apply tc_once.
      - eapply tc_l; [done|]. by apply tc_once. }
    induction 1 as [a b Hab|a y b Hay _ IH]; [by apply Hstep|].
    etrans; [by apply Hstep | done]. }
  intros a b Ha Hb. split; [|apply Hback].
  intros Hab. destruct (Hforth a b Hab Hb) as [Hkeep _]. by apply Hkeep.
Qed.

Lemma removal_loop_reach (order : list Z) :
  ∀ (stream_dist final : list edge),
    removal_loop order stream_dist = Ok final →
    ∀ a b, a ∉ order → b ∉ order →
           (tc (flows stream_dist) a b ↔ tc (flows final) a b).
Proof.
  induction order as [|g order IH]; intros sd final H a b Ha Hb; simpl in H.
  - by injection H as <-.
  - apply bind_Ok in H as (after & Hstep & H).
    apply not_elem_of_cons in Ha as [Hag Ha].
    apply not_elem_of_cons in Hb as [Hbg Hb].
    rewrite (remove_gauge_reach sd g after Hstep a b Hag Hbg).
    by apply IH.
Qed.

(** X16. The removal loop keeps the connections between the gauges it does
    not remove: for two gauges outside the walked list, the first lies
    upstream of the second in the final table exactly when it did in the
    table the loop started from. *)
Theorem removal_keeps_connections (order : list Z)
    (stream_dist final : list edge) (a b : Z) :
  removal_loop order stream_dist = Ok final →
  a ∉ order → b ∉ order →
  (tc (flows stream_dist) a b ↔ tc (flows final) a b).
Proof.
  intros H Ha Hb. by apply (removal_loop_reach order stream_dist final H).
Qed.

Lemma removal_keeps_connections_witness :
  ∃ final,
    removal_loop [3; 2] sample_chain = Ok final
    ∧ (tc (flows sample_chain) 1 399 ↔ tc (flows final) 1 399).
Proof.
  eexists. split; [vm_compute; reflexivity|].
  apply (removal_keeps_connections [3; 2] sample_chain).
  - vm_compute. reflexivity.
  - intros H. repeat (apply elem_of_cons in H as [H|H]; [discriminate H|]).
    by apply elem_of_nil in H.
  - intros H. repeat (apply elem_of_cons in H as [H|H]; [discriminate H|]).
    by apply elem_of_nil in H.
Defined.

Lemma route_lift (original stream_dist : list edge) :
  (∀ r, r ∈ stream_dist →
        route original (ID r) (NEXTDOWNID r) (dist_hdn r) (elev_diff r)) →
  ∀ a b d e, route stream_dist a b d e → route original a b d e.
Proof.
  intros Hrows a b d e. induction 1 as [r Hr|a b c d1 e1 d2 e2 _ IH1 _ IH2].
  - by apply Hrows.
  - by apply route_join with b.
Qed.

Lemma remove_gauge_routes (stream_dist : list edge) (g : Z) (after : list edge) :
  remove_gauge stream_dist g = Ok after →
  ∀ r, r ∈ after →
       route stream_dist (ID r) (NEXTDOWNID r) (dist_hdn r) (elev_diff r).
Proof.
  intros H r Hr. apply remove_gauge_rows in H as [_ Hrows].
  apply Hrows in Hr as [(Hr & _)|(inc & out & Hinc & Hn & Hout & Hi & ->)].
  - by constructor.
  - simpl. apply route_join with (NEXTDOWNID inc); [by constructor|].
    rewrite Hn, <- Hi. by constructor.
Qed.

Lemma removal_loop_routes (order : list Z) :
  ∀ (stream_dist final : list edge),
    removal_loop order stream_dist = Ok final →
    ∀ r, r ∈ final →
         route stream_dist (ID r) (NEXTDOWNID r) (dist_hdn r) (elev_diff r).
Proof.
  induction order as [|g order IH]; intros sd final H r Hr; simpl in H.
  - injection H as <-. by constructor.
  - apply bind_Ok in H as (after & Hstep & H).
    apply (route_lift sd after); [by apply remove_gauge_routes with g|].
    by apply (IH after final).
Qed.

(** X17. Every row of the table after the removal loop stands for a path of
    rows of the table the loop started from, from the row's ID down to its
    NEXTDOWNID: the row's distance is the sum of the distances along that
    path and its elevation difference the sum of the elevation differences,
    however many removed gauges the path runs through. *)
Theorem removal_rows_are_routes (order : list Z)
    (stream_dist final : list edge) (r : edge) :
  removal_loop order stream_dist = Ok final →
  r ∈ final →
  route stream_dist (ID r) (NEXTDOWNID r) (dist_hdn r) (elev_diff r).
Proof. intros H. by apply removal_loop_routes with order. Qed.

Lemma removal_rows_are_routes_witness :
  route sample_chain 1 399 (4 + 6 + 5) (2 + 3 + 1).
Proof.
  apply (removal_rows_are_routes [2; 3] sample_chain
           [ {| ID := 1; NEXTDOWNID := 399;
                dist_hdn := 4 + 6 + 5; elev_diff := 2 + 3 + 1 |} ]
           {| ID := 1; NEXTDOWNID := 399;
              dist_hdn := 4 + 6 + 5; elev_diff := 2 + 3 + 1 |}).
  - vm_compute. reflexivity.
  - left.
Defined.

(** X18. On an acyclic table the removal loop returns for every list of
    gauges, and the table it returns is acyclic again. *)
Theorem removal_keeps_acyclic (order : list Z) (stream_dist : list edge) :
  acyclic stream_dist →
  ∃ final, removal_loop order stream_dist = Ok final ∧ acyclic final.
Proof.
  intros Hacyc.
  destruct (removal_loop_total stream_dist order Hacyc stream_dist
              (shortcuts_refl stream_dist)) as (final & Hfinal & Hsc).
  exists final. split; [done|].
  assert (∀ a b, tc (flows final) a b → tc (flows stream_dist) a b) as Hback.
  { induction 1 as [a b (r & Hr & <- & <-)|a y b (r & Hr & <- & <-) _ IH].
    - by apply Hsc.
    - etrans; [by apply Hsc | done]. }
  intros g Hg. by apply (Hacyc g), Hback.
Qed.

Lemma removal_keeps_acyclic_witness :
  ∃ final, removal_loop [3; 2] sample_chain = Ok final ∧ acyclic final.
Proof.
  apply (removal_keeps_acyclic [3; 2] sample_chain).
  apply (ranked_acyclic (λ g, - g)). repeat constructor.
Defined.

Lemma remove_gauge_single_outlet (stream_dist : list edge) (g : Z)
    (after : list edge) :
  remove_gauge stream_dist g = Ok after →
  single_outlet stream_dist → single_outlet after.
Proof.
  intros Hrm Hsingle. apply remove_gauge_flows in Hrm as [_ Hflows].
  intros a b b' Hb Hb'.
  apply Hflows in Hb as [(Hb & _ & Hbg)|[Hag Hb]];
    apply Hflows in Hb' as [(Hb' & _ & Hbg')|[Hag' Hb']].
  - by apply (Hsingle a).
  - exfalso. apply Hbg. by apply (Hsingle a).
  - exfalso. apply Hbg'. by apply (Hsingle a).
  - by apply (Hsingle g).
Qed.

(** X19. The removal loop keeps the river network a network in which every
    gauge drains into at most one next gauge: when no gauge of the starting
    table has two different NEXTDOWNID values, none has in the final
    table. *)
Theorem removal_keeps_single_outlet (order : list Z)
    (stream_dist final : list edge) :
  removal_loop order stream_dist = Ok final →
  single_outlet stream_dist → single_outlet final.
Proof.
  revert stream_dist. induction order as [|g order IH]; intros sd H Hs;
    simpl in H.
  - by injection H as <-.
  - apply bind_Ok in H as (after & Hstep & H).
    apply (IH after H). by apply remove_gauge_single_outlet with sd g.
Qed.

Lemma NoDup_single_outlet (stream_dist : list edge) :
  NoDup (ID <$> stream_dist) → single_outlet stream_dist.
Proof.
  intros Hnd a b b' (r & Hr & Hi & Hn) (r' & Hr' & Hi' & Hn').
  assert (r = r') as <-; [|congruence].
  clear Hn Hn'. subst a. induction stream_dist as [|r0 rest IH];
    [by apply elem_of_nil in Hr|].
  rewrite fmap_cons in Hnd. apply NoDup_cons in Hnd as [Hnotin Hnd].
  apply elem_of_cons in Hr as [->|Hr]; apply elem_of_cons in Hr' as [->|Hr'].
  - done.
  - exfalso. apply Hnotin. rewrite <- Hi'. by apply list_elem_of_fmap_2.
  - exfalso. apply Hnotin. rewrite Hi'. by apply list_elem_of_fmap_2.
  - by apply IH.
Qed.

Lemma removal_keeps_single_outlet_witness :
  ∃ final,
    removal_loop [3; 2] sample_chain = Ok final ∧ single_outlet final.
Proof.
  eexists. split; [vm_compute; reflexivity|].
  apply (removal_keeps_single_outlet [3; 2] sample_chain).
  - vm_compute. reflexivity.
  - apply NoDup_single_outlet. apply (bool_decide_unpack _). vm_compute. exact I.
Defined.

(** * From [process] to the constructor *)

Lemma elem_of_connected (stream_dist : list edge) (g : Z) :
  g ∈ connected_gauges stream_dist
  ↔ ∃ r, r ∈ stream_dist ∧ (ID r = g ∨ NEXTDOWNID r = g).
Proof.
  unfold connected_gauges.
  rewrite elem_of_union, !elem_of_list_to_set, !list_elem_of_fmap. split.
  - intros [(r & -> & Hr)|(r & -> & Hr)]; exists r; auto.
  - intros (r & Hr & [<-|<-]); [left|right]; exists r; auto.
Qed.

Lemma remove_gauge_nodes (stream_dist : list edge) (g : Z) (after : list edge) :
  remove_gauge stream_dist g = Ok after →
  connected_gauges after ⊆ connected_gauges stream_dist.
Proof.
  intros H x Hx. apply remove_gauge_rows in H as [_ Hrows].
  apply elem_of_connected in Hx as (r & Hr & Hx). apply elem_of_connected.
  apply Hrows in Hr as [(Hr & _)|(inc & out & Hinc & _ & Hout & _ & ->)].
  - by exists r.
  - simpl in Hx. destruct Hx as [<-|<-]; [exists inc | exists out]; auto.
Qed.

Lemma removal_loop_nodes (order : list Z) :
  ∀ (stream_dist final : list edge),
    removal_loop order stream_dist = Ok final →
    connected_gauges final ⊆ connected_gauges stream_dist.
Proof.
  induction order as [|g order IH]; intros sd final H; simpl in H.
  - by injection H as <-.
  - apply bind_Ok in H as (after & Hstep & H).
    etrans; [by apply (IH after) | by apply remove_gauge_nodes with g].
Qed.

Lemma persisted_edges (final : list edge) :
  edge_of <$> merge_sort by_ID (with_slope <$> final) ≡ₚ final.
Proof.
  assert (edge_of <$> (with_slope <$> final) = final) as Heq.
  { rewrite <- list_fmap_compose. rewrite <- (list_fmap_id final) at 2.
    by apply list_fmap_ext. }
  by rewrite merge_sort_Permutation, Heq.
Qed.

Lemma tc_flows_incl (l l' : list edge) (a b : Z) :
  (∀ r, r ∈ l → r ∈ l') → tc (flows l) a b → tc (flows l') a b.
Proof.
  intros Hincl.
  assert (∀ a b, flows l a b → flows l' a b) as Hstep.
  { intros x y (r & Hr & ? & ?). exists r. auto. }
  induction 1 as [a b Hab|a y b Hay _ IH].
  - by apply tc_once, Hstep.
  - eapply tc_l; [by apply Hstep | done].
Qed.

(** What a successful run of [process] says about the gauges of its
    adjacency table. *)
Lemma process_gauges walk read_hourly depth raw adjacency statistics :
  (∀ s, walk s ≡ₚ elements s) →
  process walk read_hourly depth raw = Ok (adjacency, statistics) →
  ∀ g, g ∈ gauge_list adjacency →
       g ∈ connected_gauges (edge_of <$> raw)
       ∧ ∃ s, (g, s) ∈ statistics ∧ passes read_hourly g s.
Proof.
  intros Hwalk H g Hg.
  apply process_Ok in H
    as (danube & feasible & final & _ & _ & Hloop & _ & Hrem & ->).
  apply filter_loop_spec in Hloop as (HF & Hrows & HK).
  assert (g ∈ connected_gauges final) as Hfinal.
  { apply elem_of_gauge_list in Hg as (r & Hr & Hg).
    rewrite merge_sort_Permutation in Hr.
    apply list_elem_of_fmap in Hr as (e & -> & He).
    apply elem_of_connected. by exists e. }
  assert (g ∈ connected_gauges (edge_of <$> raw)) as Hconn
    by (by apply (removal_loop_nodes _ _ _ Hrem)).
  split; [done|].
  assert (g ∈ statistics.*1) as Hkey.
  { apply HK. right.
    destruct (decide (g ∈ feasible)) as [Hin|Hnot].
    - apply HF in Hin as [Hin|?]; [|done]. by apply not_elem_of_empty in Hin.
    - exfalso.
      assert (absent final g) as Habs.
      { apply (removal_loop_clears _ _ _ _ Hrem).
        apply elem_of_walk; [done|]. by apply elem_of_difference. }
      apply elem_of_connected in Hfinal as (r & Hr & Hor).
      destruct (Habs r Hr). by destruct Hor. }
  apply list_elem_of_fmap in Hkey as ([g' s] & -> & Hgs). simpl.
  exists s. split; [done|].
  apply Hrows in Hgs as [Hgs|[_ ?]]; [|done]. by apply elem_of_nil in Hgs.
Qed.

(** X20. Every gauge of the adjacency table persisted by [process] has a
    readable hourly file and a row in the persisted statistics table. For
    such a gauge the look-up [statistics.loc[gauge_id]] of the loading loop
    with normalisation raises no key error, and the loop body normalises
    the series of the gauge with the mean and the standard deviation of
    that gauge's own whole series. Whether the constructor as a whole
    returns is not part of the statement. *)
Theorem persisted_gauges_have_statistics walk read_hourly depth raw adjacency statistics :
  (∀ s, walk s ≡ₚ elements s) →
  process walk read_hourly depth raw = Ok (adjacency, statistics) →
  ∀ g, g ∈ gauge_list adjacency →
       ∃ (ts : list hourly) (s : Stat.row),
         read_hourly g = Ok ts
         ∧ stat_loc statistics g = Ok s
         ∧ s = Series.describe (qobs <$> ts)
         ∧ load_gauge read_hourly statistics true g
           = Ok ((λ h, (YYYY h, ((qobs h - Stat.mean s) / Stat.std s)%R)) <$> ts).
Proof.
  intros Hwalk H g Hg.
  destruct (process_gauges _ _ _ _ _ _ Hwalk H g Hg)
    as (_ & s & Hgs & ts & Hread & Hcheck).
  apply process_Ok in H as (danube & feasible & final & _ & _ & Hloop & _).
  apply filter_loop_NoDup in Hloop; [|constructor].
  destruct (stat_loc_present statistics g) as [s' Hs'].
  { by apply (list_elem_of_fmap_2 fst statistics (g, s)). }
  assert (s' = s) as ->.
  { apply stat_loc_Ok in Hs'. by apply (NoDup_fst_functional statistics g). }
  apply gauge_check_Some in Hcheck as (_ & _ & _ & _ & Hs).
  exists ts, s. split; [done|]. split; [done|]. split; [done|].
  unfold load_gauge. rewrite Hread. simpl. by rewrite Hs'.
Qed.

Lemma persisted_gauges_have_statistics_witness :
  ∃ (ts : list hourly) (s : Stat.row),
    read_long 1 = Ok ts
    ∧ stat_loc
        [ (399, Series.describe (qobs <$> long_series inner_hours));
          (1, Series.describe (qobs <$> long_series inner_hours)) ] 1
      = Ok s
    ∧ s = Series.describe (qobs <$> ts)
    ∧ load_gauge read_long
        [ (399, Series.describe (qobs <$> long_series inner_hours));
          (1, Series.describe (qobs <$> long_series inner_hours)) ]
        true 1
      = Ok ((λ h, (YYYY h, ((qobs h - Stat.mean s) / Stat.std s)%R)) <$> ts).
Proof.
  apply (persisted_gauges_have_statistics elements read_long 3 sample_adjacency
           sample_adjacency _ (λ s, reflexivity _) process_long 1).
  apply (bool_decide_unpack _). vm_compute. exact I.
Defined.

(** X21. The persisted adjacency table keeps every feasible gauge connected
    to the outlet: each gauge with a row in the persisted statistics table,
    other than the outlet 399 itself, lies upstream of 399 in the persisted
    adjacency table. *)
Theorem feasible_gauges_reach_outlet walk read_hourly depth raw adjacency
    statistics (g : Z) :
  (∀ s, walk s ≡ₚ elements s) →
  process walk read_hourly depth raw = Ok (adjacency, statistics) →
  g ∈ statistics.*1 → g ≠ 399 →
  tc (flows (edge_of <$> adjacency)) g 399.
Proof.
  intros Hwalk H Hg Hne.
  apply process_Ok in H
    as (danube & feasible & final & Hup & _ & Hloop & Hout & Hrem & ->).
  apply filter_loop_spec in Hloop as (HF & _ & HK).
  apply HK in Hg as [Hg|[Hg Hpass]]; [by apply elem_of_nil in Hg|].
  assert (g ∈ feasible) as Hfeasible by (apply HF; by right).
  apply elem_of_walk in Hg; [|done].
  apply (collect_upstream_sound walk Hwalk _ _ _ _ Hup) in Hg.
  apply rtc_tc in Hg as [->|Hg]; [done|].
  apply (tc_flows_incl final).
  { intros r Hr. by rewrite persisted_edges. }
  apply (removal_loop_reach _ _ _ Hrem); [| |done].
  - rewrite elem_of_walk, elem_of_difference by done. tauto.
  - rewrite elem_of_walk, elem_of_difference by done. tauto.
Qed.

Lemma feasible_gauges_reach_outlet_witness :
  tc (flows (edge_of <$> sample_adjacency)) 1 399.
Proof.
  apply (feasible_gauges_reach_outlet elements read_long 3 sample_adjacency
           sample_adjacency _ 1 (λ s, reflexivity _) process_long).
  - right. left.
  - discriminate.
Defined.

(** X22. The adjacency table persisted by [process] is sorted by ID; the
    slope of each of its rows is the row's elevation difference divided by
    its distance; each row stands for a path of the raw table with that
    total distance and elevation difference; and the [strm_slope] column of
    the raw table has no influence on the result. *)
Theorem persisted_adjacency walk read_hourly depth raw adjacency statistics :
  process walk read_hourly depth raw = Ok (adjacency, statistics) →
  StronglySorted by_ID adjacency
  ∧ (∀ r : adjacency_row,
        r ∈ adjacency →
        strm_slope r = (elev_diff r / dist_hdn r)%R
        ∧ route (edge_of <$> raw) (ID r) (NEXTDOWNID r)
            (dist_hdn r) (elev_diff r))
  ∧ (∀ raw' : list adjacency_row,
        edge_of <$> raw' = edge_of <$> raw →
        process walk read_hourly depth raw' = Ok (adjacency, statistics)).
Proof.
  intros H. split; [|split].
  - apply process_Ok in H as (danube & feasible & final & _ & _ & _ & _ & _ & ->).
    apply (StronglySorted_merge_sort by_ID).
  - intros r Hr.
    apply process_Ok in H
      as (danube & feasible & final & _ & _ & _ & _ & Hrem & ->).
    rewrite merge_sort_Permutation in Hr.
    apply list_elem_of_fmap in Hr as (e & -> & He). simpl.
    split; [done|]. by apply removal_loop_routes with (walk
      (connected_gauges (edge_of <$> raw) ∖ feasible)) final.
  - intros raw' Hraw. unfold process in *. by rewrite Hraw.
Qed.

Lemma persisted_adjacency_witness :
  StronglySorted by_ID sample_adjacency
  ∧ (∀ r : adjacency_row,
        r ∈ sample_adjacency →
        strm_slope r = (elev_diff r / dist_hdn r)%R
        ∧ route (edge_of <$> sample_adjacency) (ID r) (NEXTDOWNID r)
            (dist_hdn r) (elev_diff r))
  ∧ (∀ raw' : list adjacency_row,
        edge_of <$> raw' = edge_of <$> sample_adjacency →
        process elements read_long 3 raw'
        = Ok (sample_adjacency,
              [ (399, Series.describe (qobs <$> long_series inner_hours));
                (1, Series.describe (qobs <$> long_series inner_hours)) ])).
Proof.
  apply (persisted_adjacency elements read_long 3 sample_adjacency).
  exact process_long.
Defined.

(** * Normalisation at load time *)



(** Normalisation of the [qobs] column of a loaded file. *)
Local Abbreviation scaled p :=
  (λ v : R, ((v - Stat.mean (snd p)) / Stat.std (snd p))%R).








(** * Raw acquisition *)

Lemma prefix_append (p s : string) : String.prefix p (p +:+ s) = true.
Proof.
  induction p as [|a p IH]; simpl.
  - by destruct s.
  - destruct (Ascii.ascii_dec a a); [exact IH | done].
Qed.

Lemma elem_of_extracted (members : list string) (name : string) :
  name ∈ extracted members
  ↔ name ∈ members
    ∧ ∃ p, p ∈ raw_file_names ∧ String.prefix p name = true.
Proof.
  unfold extracted, startswith. rewrite list_elem_of_filter. split.
  - intros [Hstart Hin]. split; [done|].
    apply Is_true_true, existsb_exists in Hstart as (p & Hp & Hpre).
    exists p. split; [by apply list_elem_of_In | done].
  - intros [Hin (p & Hp & Hpre)]. split; [|done].
    apply Is_true_true, existsb_exists. exists p.
    split; [by apply list_elem_of_In | done].
Qed.

(** X24. [download] extracts exactly the archive members whose names start
    with one of the two raw sub-trees. In particular every file that
    [process] and the constructor later read (the stream table and the
    hourly file of any gauge) is extracted when the archive holds it, and
    extracting from what was already extracted changes nothing. *)
Theorem download_extracts_what_is_read (members : list string) :
  (∀ name,
      name ∈ extracted members
      ↔ name ∈ members
        ∧ ∃ p, p ∈ raw_file_names ∧ String.prefix p name = true)
  ∧ (stream_dist_path ∈ members → stream_dist_path ∈ extracted members)
  ∧ (∀ gauge_id : Z,
        hourly_path gauge_id ∈ members →
        hourly_path gauge_id ∈ extracted members)
  ∧ extracted (extracted members) = extracted members.
Proof.
  split; [apply elem_of_extracted|]. split; [|split].
  - intros Hin. apply elem_of_extracted. split; [done|].
    exists (raw_file_name 0). split; [left | apply prefix_append].
  - intros g Hin. apply elem_of_extracted. split; [done|].
    exists (raw_file_name 1). split; [right; left | apply prefix_append].
  - unfold extracted. apply filter_all, Forall_forall.
    intros name Hname. by apply list_elem_of_filter in Hname as [? _].
Qed.

(** * Shapes that do not broadcast *)

Lemma broadcast_size_Raise (a b : nat) :
  a ≠ b → a ≠ 1%nat → b ≠ 1%nat → broadcast_size a b = Raise RuntimeError.
Proof.
  intros Hab Ha Hb. unfold broadcast_size.
  by rewrite !decide_False by done.
Qed.

(** X25. The two statistics columns of a constructed dataset have one row
    per row of the statistics table. A tensor whose number of rows is
    neither that number nor one is refused with a runtime error by both
    [normalize] and [denormalize], provided the statistics table has more
    than one row or none. *)
Theorem normalize_shape_mismatch read adjacency statistics ys w s l norm ds
    (x : tensor2) :
  __init__ read adjacency statistics ys w s l norm = Ok ds →
  length x ≠ length statistics →
  length x ≠ 1%nat →
  length statistics ≠ 1%nat →
  normalize ds x = Raise RuntimeError
  ∧ denormalize ds x = Raise RuntimeError.
Proof.
  intros Hinit Hne Hx Hs.
  apply init_fields in Hinit as (_ & _ & Hmean & Hstd).
  unfold normalize, denormalize, elementwise. rewrite Hmean, Hstd.
  rewrite !length_fmap.
  rewrite (broadcast_size_Raise (length x) (length statistics)) by done.
  by rewrite (broadcast_size_Raise (length statistics) (length x)) by done.
Qed.

Lemma normalize_shape_mismatch_witness :
  ∃ ds,
    __init__ sample_hours sample_adjacency two_statistics [2000; 2001] 24 1 1 false
    = Ok ds
    ∧ normalize ds [[1]; [2]; [3]]%R = Raise RuntimeError
    ∧ denormalize ds [[1]; [2]; [3]]%R = Raise RuntimeError.
Proof.
  destruct (__init__ sample_hours sample_adjacency two_statistics [2000; 2001]
              24 1 1 false) as [ds|e] eqn:Hinit;
    [|vm_compute in Hinit; discriminate Hinit].
  exists ds. split; [reflexivity|].
  apply (normalize_shape_mismatch sample_hours sample_adjacency two_statistics
           [2000; 2001] 24 1 1 false ds [[1]; [2]; [3]]%R Hinit).
  - simpl. lia.
  - simpl. lia.
  - simpl. lia.
Defined.

(** * Sufficient conditions for processing *)

(** X26. [process] returns both tables whenever the raw table is acyclic
    and has fewer rows than the recursion depth allows, gauge 399 occurs in
    it, the hourly file of every gauge upstream of 399 can be read and does
    not trip the assertion on the boundary time stamps, and gauge 399
    itself is feasible. *)
Theorem process_returns walk read_hourly depth raw :
  (∀ s, walk s ≡ₚ elements s) →
  acyclic (edge_of <$> raw) →
  (length raw < depth)%nat →
  399 ∈ connected_gauges (edge_of <$> raw) →
  (∀ g, rtc (flows (edge_of <$> raw)) g 399 →
        ∃ ts verdict, read_hourly g = Ok ts ∧ gauge_check ts = Ok verdict) →
  (∃ s, passes read_hourly 399 s) →
  ∃ adjacency statistics,
    process walk read_hourly depth raw = Ok (adjacency, statistics).
Proof. apply process_total. Qed.

Lemma process_returns_witness :
  ∃ adjacency statistics,
    process elements read_long 3 sample_adjacency = Ok (adjacency, statistics).
Proof.
  apply (process_returns elements read_long 3 sample_adjacency).
  - intros s. reflexivity.
  - apply (ranked_acyclic sample_rank).
    constructor; [|constructor]. vm_compute. reflexivity.
  - simpl. lia.
  - apply (bool_decide_unpack _). vm_compute. exact I.
  - intros g _. eexists _, _. split; [reflexivity|].
    apply gauge_check_long_series.
  - eexists _, _. split; [reflexivity|]. apply gauge_check_long_series.
Defined.
